(** * SIPly Smart: the goal planner's calculator, verified

    A shallow embedding of [Planner.tsx]: [getHealthScore], [computeResults],
    the portfolio totals, [recommendedAllocation] and [scenarioResults],
    followed by the properties the specification states about them; then
    the component's state and its handlers ([handleInputChange],
    [handleRiskChange], [calculateForGoal], [addGoal], [removeGoal]), the
    income message and the chart scale, with further properties of the code
    in [Extras].

    Numbers.  A JavaScript number is modelled by [JS.num]: [NaN], the two
    infinities, or a finite value held as a canonical rational [Qc], so that
    [===] on finite values is Leibniz equality.  Finite arithmetic is exact:
    rounding to binary64, overflow and underflow are not modelled.  The sign
    of zero is not modelled either; a zero divisor acts as [+0], which is the
    only zero the program can divide by ([x - 1] with [x = 1]).
    Properties that would depend on rounding are stated through the
    program's own expressions on the input fields and through its
    comparisons, which are false on [NaN], or they say that they hold in
    exact arithmetic.

    Text.  The numeric fields of [Inputs] are strings, read by [Number]
    and written by [toString].  [JS.Number] follows StringToNumber on ASCII
    text: a text that is no numeric literal is [NaN], the empty string is
    [0], [Infinity] is [PInf]; a decimal literal is read exactly, whatever
    its size.  [JS.toString] follows Number::toString on the numbers that
    have a finite decimal expansion, as every number read from a text
    has. *)

From Stdlib Require Import ZArith QArith Qcanon Qround Bool List Ascii String.
From Stdlib Require Import DecimalString Lia Lra Psatz.
Import ListNotations.

(* ================================================================= *)
(** ** JavaScript numbers *)

Module JS.

Inductive num : Type :=
| NaN
| PInf
| NInf
| Fin (q : Qc).

Definition Qceqb (x y : Qc) : bool :=
  match (x ?= y)%Qc with Eq => true | _ => false end.
Definition Qcltb (x y : Qc) : bool :=
  match (x ?= y)%Qc with Lt => true | _ => false end.
Definition Qcleb (x y : Qc) : bool :=
  match (x ?= y)%Qc with Gt => false | _ => true end.

Definition ofZ (z : Z) : num := Fin (Q2Qc (inject_Z z)).
(** The decimal literal [n/d], e.g. [dec 13 10] for [1.3]. *)
Definition dec (n : Z) (d : positive) : num := Fin (Q2Qc (n # d)).

Definition zero : num := ofZ 0.
Definition one : num := ofZ 1.

Definition inf (negative : bool) : num := if negative then NInf else PInf.

(** ToBoolean on a number: [NaN] and [0] are falsy. *)
Definition truthy (v : num) : bool :=
  match v with
  | NaN => false
  | Fin q => negb (Qceqb q 0)
  | _ => true
  end.

(** [a || b] on numbers. *)
Definition or_else (a b : num) : num := if truthy a then a else b.

(** Relational operators; every comparison with [NaN] is false. *)
Definition lt (a b : num) : bool :=
  match a, b with
  | NaN, _ | _, NaN => false
  | _, NInf => false
  | NInf, _ => true
  | PInf, _ => false
  | Fin _, PInf => true
  | Fin x, Fin y => Qcltb x y
  end.

Definition le (a b : num) : bool :=
  match a, b with
  | NaN, _ | _, NaN => false
  | NInf, _ => true
  | _, PInf => true
  | PInf, _ => false
  | Fin _, NInf => false
  | Fin x, Fin y => Qcleb x y
  end.

Definition gt (a b : num) : bool := lt b a.
Definition ge (a b : num) : bool := le b a.

(** [a === b] on numbers. *)
Definition seq (a b : num) : bool :=
  match a, b with
  | PInf, PInf | NInf, NInf => true
  | Fin x, Fin y => Qceqb x y
  | _, _ => false
  end.

Definition is_zero (a : num) : bool := seq a zero.
Definition negative (a : num) : bool := lt a zero.

Definition neg (a : num) : num :=
  match a with
  | NaN => NaN
  | PInf => NInf
  | NInf => PInf
  | Fin x => Fin (- x)%Qc
  end.

Definition add (a b : num) : num :=
  match a, b with
  | NaN, _ | _, NaN => NaN
  | PInf, NInf | NInf, PInf => NaN
  | PInf, _ | _, PInf => PInf
  | NInf, _ | _, NInf => NInf
  | Fin x, Fin y => Fin (x + y)%Qc
  end.

Definition sub (a b : num) : num := add a (neg b).

Definition mul (a b : num) : num :=
  match a, b with
  | NaN, _ | _, NaN => NaN
  | Fin x, Fin y => Fin (x * y)%Qc
  | _, _ =>
      if is_zero a || is_zero b then NaN
      else inf (xorb (negative a) (negative b))
  end.

Definition div (a b : num) : num :=
  match a, b with
  | NaN, _ | _, NaN => NaN
  | Fin x, Fin y =>
      if Qceqb y 0
      then (if Qceqb x 0 then NaN else inf (Qcltb x 0))
      else Fin (x / y)%Qc
  | Fin _, _ => zero
  | _, Fin y => inf (xorb (negative a) (Qcltb y 0))
  | _, _ => NaN
  end.

Definition Math_max (a b : num) : num :=
  match a, b with
  | NaN, _ | _, NaN => NaN
  | _, _ => if lt a b then b else a
  end.

Definition Math_min (a b : num) : num :=
  match a, b with
  | NaN, _ | _, NaN => NaN
  | _, _ => if lt b a then b else a
  end.

(** [Math.round]: the nearest integer, ties towards [+Infinity]. *)
Definition round_half_up (q : Qc) : Z := Qfloor (q + (1 # 2)).

Definition Math_round (a : num) : num :=
  match a with
  | Fin q => ofZ (round_half_up q)
  | _ => a
  end.

Definition is_integer (q : Qc) : bool := Pos.eqb (Qden q) 1.
Definition is_odd_integer (q : Qc) : bool := is_integer q && Z.odd (Qnum q).

Definition Qcabs (q : Qc) : Qc := if Qcltb q 0 then (- q)%Qc else q.

Section Pow.

(** [Math.pow] at a positive finite base and a finite exponent that is no
    integer: ECMAScript leaves the value implementation-approximated, and it
    is in general not rational.  It stays a parameter of the development. *)
Variable pow_frac : Qc -> Qc -> Qc.

(** A finite base to a finite exponent, neither of them zero. *)
Definition pow_finite (b e : Qc) : num :=
  if is_integer e then
    if Qcltb 0 e
    then Fin (b ^ Z.to_nat (Qnum e))%Qc
    else Fin (/ (b ^ Z.to_nat (- Qnum e)))%Qc
  else if Qcltb b 0 then NaN
  else Fin (pow_frac b e).

(** [Math.pow(base, exponent)], following Number::exponentiate. *)
Definition Math_pow (base exponent : num) : num :=
  match exponent with
  | NaN => NaN
  | _ =>
    if is_zero exponent then one else
    match base with
    | NaN => NaN
    | PInf => if gt exponent zero then PInf else zero
    | NInf =>
        if gt exponent zero
        then match exponent with
             | Fin e => if is_odd_integer e then NInf else PInf
             | _ => PInf
             end
        else zero
    | Fin b =>
        if Qceqb b 0 then (if gt exponent zero then zero else PInf) else
        match exponent with
        | PInf =>
            match (Qcabs b ?= 1)%Qc with
            | Gt => PInf | Eq => NaN | Lt => zero
            end
        | NInf =>
            match (Qcabs b ?= 1)%Qc with
            | Gt => zero | Eq => NaN | Lt => PInf
            end
        | Fin e => pow_finite b e
        | NaN => NaN
        end
    end
  end.

End Pow.

(** *** Numeric text *)

(** White space that [StringToNumber] strips: TAB, LF, VT, FF, CR and the
    space (the white space outside ASCII is not modelled). *)
Definition is_space (c : ascii) : bool :=
  let n := nat_of_ascii c in
  ((9 <=? n)%nat && (n <=? 13)%nat) || (n =? 32)%nat.

Fixpoint drop_spaces (l : list ascii) : list ascii :=
  match l with
  | c :: l' => if is_space c then drop_spaces l' else l
  | [] => []
  end.

Definition trim (l : list ascii) : list ascii :=
  rev (drop_spaces (rev (drop_spaces l))).

(** The value of a digit in the given base, letters in either case. *)
Definition digit_of (base : Z) (c : ascii) : option Z :=
  let n := Z.of_nat (nat_of_ascii c) in
  let v :=
    if (48 <=? n)%Z && (n <=? 57)%Z then Some (n - 48)%Z
    else if (97 <=? n)%Z && (n <=? 102)%Z then Some (n - 87)%Z
    else if (65 <=? n)%Z && (n <=? 70)%Z then Some (n - 55)%Z
    else None in
  match v with
  | Some d => if (d <? base)%Z then Some d else None
  | None => None
  end.

(** The longest run of digits at the head of [l], read onto [acc]: its
    value, the number of digits and what follows. *)
Fixpoint digits (base : Z) (l : list ascii) (acc : Z) (count : nat)
  : Z * nat * list ascii :=
  match l with
  | c :: l' =>
      match digit_of base c with
      | Some d => digits base l' (acc * base + d)%Z (S count)
      | None => (acc, count, l)
      end
  | [] => (acc, count, [])
  end.

(** [mantissa * 10 ^ exponent]. *)
Definition scale10 (mantissa exponent : Z) : num :=
  Fin (Q2Qc (inject_Z mantissa * Qpower (inject_Z 10) exponent)).

(** ExponentPart, or nothing, up to the end of the text. *)
Definition exponent_part (l : list ascii) : option Z :=
  match l with
  | [] => Some 0%Z
  | c :: l' =>
      if (Ascii.eqb c "e"%char || Ascii.eqb c "E"%char)%bool then
        let '(minus, body) :=
          match l' with
          | "+"%char :: b => (false, b)
          | "-"%char :: b => (true, b)
          | _ => (false, l')
          end in
        match digits 10 body 0 0 with
        | (e, S _, []) => Some (if minus then (- e)%Z else e)
        | _ => None
        end
      else None
  end.

(** StrUnsignedDecimalLiteral. *)
Definition unsigned_decimal (l : list ascii) : num :=
  if list_eq_dec Ascii.ascii_dec l (list_ascii_of_string "Infinity")
  then PInf
  else
    let '(whole, n1, rest) := digits 10 l 0 0 in
    let '(mantissa, n2, rest') :=
      match rest with
      | "."%char :: r => digits 10 r whole 0
      | _ => (whole, O, rest)
      end in
    match (n1 + n2)%nat, exponent_part rest' with
    | S _, Some e => scale10 mantissa (e - Z.of_nat n2)
    | _, _ => NaN
    end.

(** NonDecimalIntegerLiteral: the digits after [0x], [0o] or [0b]. *)
Definition radix_literal (base : Z) (l : list ascii) : num :=
  match digits base l 0 0 with
  | (v, S _, []) => ofZ v
  | _ => NaN
  end.

(** [StringToNumber]: what [Number] gives for a string. *)
Definition StringToNumber (s : string) : num :=
  match trim (list_ascii_of_string s) with
  | [] => zero
  | ("0" :: "x" :: l)%char | ("0" :: "X" :: l)%char => radix_literal 16 l
  | ("0" :: "o" :: l)%char | ("0" :: "O" :: l)%char => radix_literal 8 l
  | ("0" :: "b" :: l)%char | ("0" :: "B" :: l)%char => radix_literal 2 l
  | ("+" :: l)%char => unsigned_decimal l
  | ("-" :: l)%char => neg (unsigned_decimal l)
  | l => unsigned_decimal l
  end.

(** [Number] applied to a string. *)
Definition Number (s : string) : num := StringToNumber s.

(** The decimal digits of a natural number. *)
Definition digits_of (z : Z) : list ascii :=
  list_ascii_of_string (NilZero.string_of_uint (N.to_uint (Z.to_N z))).

(** The least [f] with [10 ^ f * (num / den)] an integer, searched for up to
    [fuel]: enough when [fuel] exceeds the binary size of [den]. *)
Fixpoint decimal_places (fuel : nat) (den : positive) (f : nat) : nat :=
  match fuel with
  | O => f
  | S fuel' =>
      if ((10 ^ Z.of_nat f) mod Z.pos den =? 0)%Z then f
      else decimal_places fuel' den (S f)
  end.

Fixpoint strip_zeros (rev_digits : list ascii) (dropped : nat)
  : list ascii * nat :=
  match rev_digits with
  | "0"%char :: l => strip_zeros l (S dropped)
  | _ => (rev rev_digits, dropped)
  end.

Definition zeros (n : nat) : list ascii := repeat "0"%char n.

(** The text of a positive rational [num / den] with a finite decimal
    expansion, by the cases of Number::toString: [s] are the significant
    digits, [k] their number, and the value is [0.s * 10 ^ n].  (A rational
    without a finite expansion, which no number read from a text is, has
    its digits cut where the search for [f] ends.) *)
Definition positive_text (num : Z) (den : positive) : list ascii :=
  let f := decimal_places (S (Pos.size_nat den)) den O in
  let N := (num * 10 ^ Z.of_nat f / Z.pos den)%Z in
  let '(s, z) := strip_zeros (rev (digits_of N)) O in
  let k := Z.of_nat (List.length s) in
  let n := (k + Z.of_nat z - Z.of_nat f)%Z in
  if (k <=? n)%Z && (n <=? 21)%Z then s ++ zeros (Z.to_nat (n - k))
  else if (0 <? n)%Z && (n <=? 21)%Z
  then firstn (Z.to_nat n) s ++ "."%char :: skipn (Z.to_nat n) s
  else if (-6 <? n)%Z && (n <=? 0)%Z
  then "0"%char :: "."%char :: zeros (Z.to_nat (- n)) ++ s
  else
    let e := (n - 1)%Z in
    let sign := if (e <? 0)%Z then "-"%char else "+"%char in
    let mantissa :=
      match s with
      | [d] => [d]
      | d :: more => d :: "."%char :: more
      | [] => []
      end in
    mantissa ++ "e"%char :: sign :: digits_of (Z.abs e).

(** [Number.prototype.toString]. *)
Definition toString (v : num) : string :=
  match v with
  | NaN => "NaN"
  | PInf => "Infinity"
  | NInf => "-Infinity"
  | Fin q =>
      match Qnum q with
      | Z0 => "0"
      | Zpos p => string_of_list_ascii (positive_text (Zpos p) (Qden q))
      | Zneg p =>
          String "-" (string_of_list_ascii (positive_text (Zpos p) (Qden q)))
      end
  end.

Definition finite (v : num) : Prop :=
  match v with Fin _ => True | _ => False end.

End JS.

(* ================================================================= *)
(** ** The planner *)

Module Planner.
Import JS.

Inductive RiskProfile : Type := conservative | moderate | aggressive.

Record Inputs : Type := {
  goalName : string;
  goalType : string;
  targetAmount : string;
  years : string;
  currentSavings : string;
  monthlyContribution : string;
  annualReturn : string;
  inflationRate : string;
  monthsInvested : string;
  priority : string
}.

Record ProjectionPoint : Type := {
  month : Z;
  yearLabel : string;
  value : num
}.

(** The emoji and label pair that [getHealthScore] returns, one constructor
    for each pair: "Set a goal first", "Very weak", "Needs work",
    "Almost there", "On track", "Overachiever". *)
Inductive Health : Type :=
| SetAGoalFirst
| VeryWeak
| NeedsWork
| AlmostThere
| OnTrack
| Overachiever.

Record Results : Type := {
  fvLump : num;
  fvSip : num;
  fvTotal : num;
  gap : num;
  monthlyRequired : option num;
  projection : list ProjectionPoint;
  health : Health;
  coverage : num;
  effectiveTarget : num
}.

Record Goal : Type := {
  id : Z;
  inputs : Inputs;
  results : option Results
}.

(** [{ ...base, years: v }] and its two siblings. *)
Definition with_years (base : Inputs) (v : string) : Inputs :=
  {| goalName := goalName base; goalType := goalType base;
     targetAmount := targetAmount base; years := v;
     currentSavings := currentSavings base;
     monthlyContribution := monthlyContribution base;
     annualReturn := annualReturn base; inflationRate := inflationRate base;
     monthsInvested := monthsInvested base; priority := priority base |}.

Definition with_monthlyContribution (base : Inputs) (v : string) : Inputs :=
  {| goalName := goalName base; goalType := goalType base;
     targetAmount := targetAmount base; years := years base;
     currentSavings := currentSavings base;
     monthlyContribution := v;
     annualReturn := annualReturn base; inflationRate := inflationRate base;
     monthsInvested := monthsInvested base; priority := priority base |}.

Definition with_targetAmount (base : Inputs) (v : string) : Inputs :=
  {| goalName := goalName base; goalType := goalType base;
     targetAmount := v; years := years base;
     currentSavings := currentSavings base;
     monthlyContribution := monthlyContribution base;
     annualReturn := annualReturn base; inflationRate := inflationRate base;
     monthsInvested := monthsInvested base; priority := priority base |}.

Definition with_currentSavings (base : Inputs) (v : string) : Inputs :=
  {| goalName := goalName base; goalType := goalType base;
     targetAmount := targetAmount base; years := years base;
     currentSavings := v;
     monthlyContribution := monthlyContribution base;
     annualReturn := annualReturn base; inflationRate := inflationRate base;
     monthsInvested := monthsInvested base; priority := priority base |}.

Definition getHealthScore (fvTotal effectiveTarget : num) : Health :=
  if le effectiveTarget zero then SetAGoalFirst
  else
    let coverage := div fvTotal effectiveTarget in
    if lt coverage (dec 1 2) then VeryWeak
    else if lt coverage (dec 4 5) then NeedsWork
    else if lt coverage one then AlmostThere
    else if lt coverage (dec 13 10) then OnTrack
    else Overachiever.

Definition string_of_Z (z : Z) : string := NilZero.string_of_int (Z.to_int z).

(** [`${(m / 12).toFixed(1)}y`] for the loop counter [m >= 1]: with
    [n = floor (10 * m / 12 + 1/2)] (the larger [n] on a tie), the digits of
    [n / 10], a point and the last digit of [n]. *)
Definition year_label (m : Z) : string :=
  let n := ((10 * m + 6) / 12)%Z in
  (string_of_Z (n / 10) ++ "." ++ string_of_Z (n mod 10) ++ "y")%string.

Section Calculator.

Variable pow_frac : Qc -> Qc -> Qc.

(** One turn of the trajectory loop's update of [value]. *)
Definition grow (r rm monthlyContribution value : num) : num :=
  if seq r zero then add value monthlyContribution
  else add (mul value (add one rm)) monthlyContribution.

(** [m === 1 || m % 6 === 0 || m === months]. *)
Definition sampled (m : Z) (months : num) : bool :=
  (m =? 1)%Z || (Z.rem m 6 =? 0)%Z || seq (ofZ m) months.

(** The body of [for (let m = 1; m <= months; m++)], run for the [n] turns
    that are left, from counter [m] and running [value]. *)
Fixpoint trajectory (r rm monthlyContribution months : num)
    (n : nat) (m : Z) (value : num) : list ProjectionPoint :=
  match n with
  | O => []
  | S n' =>
      let value' := grow r rm monthlyContribution value in
      let rest :=
        trajectory r rm monthlyContribution months n' (m + 1) value' in
      if sampled m months
      then {| month := m; yearLabel := year_label m; value := value' |} :: rest
      else rest
  end.

(** How many turns the loop [m = 1; m <= months; m++] takes: none when the
    test fails at once, [None] when it never fails. *)
Definition turns (months : num) : option nat :=
  match months with
  | PInf => None
  | Fin q => Some (Z.to_nat (Qfloor q))
  | _ => Some O
  end.

(** [computeResults]; [None] when the trajectory loop does not terminate. *)
Definition computeResults (inputs : Inputs) : option Results :=
  let baseTarget := or_else (Number (targetAmount inputs)) zero in
  let years := or_else (Number (years inputs)) zero in
  let inflation := or_else (Number (inflationRate inputs)) zero in
  let inflationFactor :=
    if gt years zero && gt inflation zero
    then Math_pow pow_frac (add one (div inflation (ofZ 100))) years
    else one in
  let effectiveTarget := mul baseTarget inflationFactor in
  let currentSavings := or_else (Number (currentSavings inputs)) zero in
  let monthlyContribution :=
    or_else (Number (monthlyContribution inputs)) zero in
  let annualReturn := or_else (Number (annualReturn inputs)) zero in
  let months := Math_max one (Math_round (mul years (ofZ 12))) in
  let r := div annualReturn (ofZ 100) in
  let rm := div r (ofZ 12) in
  let fvLump :=
    if seq r zero then currentSavings
    else mul currentSavings (Math_pow pow_frac (add one rm) months) in
  let fvSip :=
    if seq r zero then mul monthlyContribution months
    else mul monthlyContribution
           (div (sub (Math_pow pow_frac (add one rm) months) one) rm) in
  let fvTotal := add fvLump fvSip in
  let gap := sub fvTotal effectiveTarget in
  let needed := sub effectiveTarget fvLump in
  let monthlyRequired :=
    if le needed zero then Some zero
    else if seq r zero then Some (div needed months)
    else
      let denom := sub (Math_pow pow_frac (add one rm) months) one in
      Some (div (mul needed rm) denom) in
  match turns months with
  | None => None
  | Some n =>
      let projection :=
        trajectory r rm monthlyContribution months n 1 currentSavings in
      let coverage :=
        if gt effectiveTarget zero then div fvTotal effectiveTarget
        else zero in
      Some {| fvLump := fvLump; fvSip := fvSip; fvTotal := fvTotal;
              gap := gap; monthlyRequired := monthlyRequired;
              projection := projection;
              health := getHealthScore fvTotal effectiveTarget;
              coverage := coverage; effectiveTarget := effectiveTarget |}
  end.

(** *** The what-if scenarios *)

Record Scenarios : Type := {
  scenarioPlus2Years : Results;
  scenarioPlus2kSip : Results;
  scenarioMinus2LTarget : Results
}.

Definition plus2Years_inputs (base : Inputs) : Inputs :=
  with_years base
    (toString (or_else (add (Number (years base)) (ofZ 2)) (ofZ 2))).

Definition plus2kSip_inputs (base : Inputs) : Inputs :=
  with_monthlyContribution base
    (toString (add (or_else (Number (monthlyContribution base)) zero)
                   (ofZ 2000))).

Definition minus2LTarget_inputs (base : Inputs) : Inputs :=
  with_targetAmount base
    (toString (Math_max zero
                 (sub (or_else (Number (targetAmount base)) zero)
                      (ofZ 200000)))).

(** [scenarioResults]: the outer [None] is a run that does not terminate,
    the inner one is the [null] returned without an active goal. *)
Definition scenarioResults (activeGoal : option Goal)
  : option (option Scenarios) :=
  match activeGoal with
  | None => Some None
  | Some g =>
      let base := inputs g in
      match computeResults (plus2Years_inputs base) with
      | None => None
      | Some s1 =>
      match computeResults (plus2kSip_inputs base) with
      | None => None
      | Some s2 =>
      match computeResults (minus2LTarget_inputs base) with
      | None => None
      | Some s3 =>
          Some (Some {| scenarioPlus2Years := s1; scenarioPlus2kSip := s2;
                        scenarioMinus2LTarget := s3 |})
      end end end
  end.

End Calculator.

(** *** Portfolio totals *)

(** The four accumulators of the [goals.forEach] pass. *)
Record Sums : Type := {
  totalSip : num;
  totalRequired : num;
  coverageSum : num;
  coverageCount : nat
}.

Definition sums0 : Sums :=
  {| totalSip := zero; totalRequired := zero;
     coverageSum := zero; coverageCount := O |}.

Definition visit (acc : Sums) (g : Goal) : Sums :=
  let sip := or_else (Number (monthlyContribution (inputs g))) zero in
  let totalSip' := add (totalSip acc) sip in
  let totalRequired' :=
    match results g with
    | Some res =>
        match monthlyRequired res with
        | Some req => add (totalRequired acc) (Math_max zero req)
        | None => totalRequired acc
        end
    | None => totalRequired acc
    end in
  let qualifies :=
    match results g with
    | Some res => gt (coverage res) zero
    | None => false
    end in
  {| totalSip := totalSip';
     totalRequired := totalRequired';
     coverageSum :=
       if qualifies
       then match results g with
            | Some res => add (coverageSum acc) (coverage res)
            | None => coverageSum acc
            end
       else coverageSum acc;
     coverageCount :=
       if qualifies then S (coverageCount acc) else coverageCount acc |}.

Definition sums (goals : list Goal) : Sums := fold_left visit goals sums0.

Definition avgCoverage (acc : Sums) : num :=
  if (0 <? coverageCount acc)%nat
  then div (coverageSum acc) (ofZ (Z.of_nat (coverageCount acc)))
  else zero.

Inductive Badge : Type :=
| GettingStarted
| BadgeOnTrack
| Overprepared
| BadgeAlmostThere
| HighRiskOfShortfall.

Definition badge_of (avg : num) : Badge :=
  if ge avg one && lt avg (dec 6 5) then BadgeOnTrack
  else if ge avg (dec 6 5) then Overprepared
  else if ge avg (dec 7 10) then BadgeAlmostThere
  else if gt avg zero then HighRiskOfShortfall
  else GettingStarted.

Record Totals : Type := {
  totalCurrentSip : num;
  totalRequiredSip : num;
  badge : Badge
}.

Definition totals (goals : list Goal) : Totals :=
  let acc := sums goals in
  {| totalCurrentSip := totalSip acc;
     totalRequiredSip := totalRequired acc;
     badge := badge_of (avgCoverage acc) |}.

(** *** Priority-weighted allocation *)

Record Suggestion : Type := {
  sug_id : Z;
  sug_name : string;
  suggestedSip : num
}.

(** [Math.max(1, Math.min(5, Number(g.inputs.priority) || 1))]. *)
Definition norm_priority (g : Goal) : num :=
  let p := or_else (Number (priority (inputs g))) one in
  Math_max one (Math_min (ofZ 5) p).

Definition totalPriority (goals : list Goal) : num :=
  fold_left (fun sum g => add sum (norm_priority g)) goals zero.

Definition suggestion_name (g : Goal) : string :=
  if String.eqb (goalName (inputs g)) ""
  then ("Goal " ++ string_of_Z (id g))%string
  else goalName (inputs g).

Definition recommendedAllocation (monthlyIncome : string) (goals : list Goal)
  : option (list Suggestion) :=
  let monthlyIncomeNum := or_else (Number monthlyIncome) zero in
  if negb (truthy monthlyIncomeNum) || le monthlyIncomeNum zero then None
  else
    let safeMax := mul monthlyIncomeNum (dec 2 5) in
    let total := totalPriority goals in
    if seq total zero then None
    else
      Some (map (fun g =>
                   let norm := norm_priority g in
                   let share := mul (div norm total) safeMax in
                   {| sug_id := id g;
                      sug_name := suggestion_name g;
                      suggestedSip := Math_round share |})
                goals).

(** *** The component's state and its handlers *)

(** [getRiskReturn]. *)
Definition getRiskReturn (risk : RiskProfile) : num :=
  match risk with
  | conservative => ofZ 8
  | aggressive => ofZ 16
  | moderate => ofZ 12
  end.

(** [riskSliderValue]. *)
Definition riskSliderValue (risk : RiskProfile) : num :=
  match risk with
  | conservative => ofZ 1
  | aggressive => ofZ 3
  | moderate => ofZ 2
  end.

(** [initialInputs]. *)
Definition initialInputs : Inputs :=
  {| goalName := "Master's abroad fund"; goalType := "Education";
     targetAmount := "1500000"; years := "5"; currentSavings := "50000";
     monthlyContribution := "10000"; annualReturn := "12";
     inflationRate := "5"; monthsInvested := "0"; priority := "3" |}.

(** The state variables of [Planner] that the handlers read and set. *)
Record State : Type := {
  riskProfile : RiskProfile;
  goals : list Goal;
  activeGoalId : Z;
  monthlyIncome : string
}.

(** [goals.find((g) => g.id === activeGoalId) ?? goals[0]]; [None] is
    [undefined]. *)
Definition activeGoal (st : State) : option Goal :=
  match find (fun g => (id g =? activeGoalId st)%Z) (goals st) with
  | Some g => Some g
  | None => hd_error (goals st)
  end.

(** [keyof Inputs]. *)
Inductive Field : Type :=
| FgoalName | FgoalType | FtargetAmount | Fyears | FcurrentSavings
| FmonthlyContribution | FannualReturn | FinflationRate | FmonthsInvested
| Fpriority.

Definition get_field (field : Field) (i : Inputs) : string :=
  match field with
  | FgoalName => goalName i
  | FgoalType => goalType i
  | FtargetAmount => targetAmount i
  | Fyears => years i
  | FcurrentSavings => currentSavings i
  | FmonthlyContribution => monthlyContribution i
  | FannualReturn => annualReturn i
  | FinflationRate => inflationRate i
  | FmonthsInvested => monthsInvested i
  | Fpriority => priority i
  end.

(** [{ ...i, [field]: value }]. *)
Definition set_field (field : Field) (value : string) (i : Inputs) : Inputs :=
  {| goalName :=
       match field with FgoalName => value | _ => goalName i end;
     goalType :=
       match field with FgoalType => value | _ => goalType i end;
     targetAmount :=
       match field with FtargetAmount => value | _ => targetAmount i end;
     years := match field with Fyears => value | _ => years i end;
     currentSavings :=
       match field with FcurrentSavings => value | _ => currentSavings i end;
     monthlyContribution :=
       match field with
       | FmonthlyContribution => value
       | _ => monthlyContribution i
       end;
     annualReturn :=
       match field with FannualReturn => value | _ => annualReturn i end;
     inflationRate :=
       match field with FinflationRate => value | _ => inflationRate i end;
     monthsInvested :=
       match field with FmonthsInvested => value | _ => monthsInvested i end;
     priority := match field with Fpriority => value | _ => priority i end |}.

Definition with_inputs (g : Goal) (i : Inputs) : Goal :=
  {| id := id g; inputs := i; results := results g |}.

Definition with_results (g : Goal) (r : option Results) : Goal :=
  {| id := id g; inputs := inputs g; results := r |}.

Definition with_goals (st : State) (gs : list Goal) : State :=
  {| riskProfile := riskProfile st; goals := gs;
     activeGoalId := activeGoalId st; monthlyIncome := monthlyIncome st |}.

(** [prev.map((g) => g.id === activeGoal.id ? f(g) : g)]; [None] is the
    TypeError of reading [id] of [undefined], raised at the first goal
    visited when there is no active goal. *)
Fixpoint map_active (active : option Goal) (f : Goal -> Goal)
    (prev : list Goal) : option (list Goal) :=
  match prev with
  | [] => Some []
  | g :: rest =>
      match active with
      | None => None
      | Some a =>
          match map_active active f rest with
          | Some rest' =>
              Some ((if (id g =? id a)%Z then f g else g) :: rest')
          | None => None
          end
      end
  end.

(** [handleInputChange(field)] on an event whose value is [value]. *)
Definition handleInputChange (field : Field) (value : string) (st : State)
  : option State :=
  option_map (with_goals st)
    (map_active (activeGoal st)
       (fun g => with_inputs g (set_field field value (inputs g)))
       (goals st)).

(** [val === 1 ? "conservative" : val === 3 ? "aggressive" : "moderate"]. *)
Definition profile_of_slider (val : num) : RiskProfile :=
  if seq val (ofZ 1) then conservative
  else if seq val (ofZ 3) then aggressive
  else moderate.

(** [handleRiskChange] on an event whose value is [value]. *)
Definition handleRiskChange (value : string) (st : State) : option State :=
  let val := Number value in
  let profile := profile_of_slider val in
  let newReturn := toString (getRiskReturn profile) in
  option_map
    (fun gs =>
       {| riskProfile := profile; goals := gs;
          activeGoalId := activeGoalId st;
          monthlyIncome := monthlyIncome st |})
    (map_active (activeGoal st)
       (fun g => with_inputs g (set_field FannualReturn newReturn (inputs g)))
       (goals st)).

(** [Math.max(...ids)] for a list that is not empty. *)
Definition max_of (ids : list Z) : Z :=
  match ids with
  | [] => 0
  | x :: l => fold_left Z.max l x
  end.

(** [addGoal]: the identifier is computed twice in the source, from [prev]
    for the new goal and from [goals] for the active identifier; both are
    the goals of the state the handler runs in. *)
Definition nextId (prev : list Goal) : Z :=
  match prev with
  | [] => 1
  | _ => max_of (map id prev) + 1
  end.

Definition newGoal (n : Z) : Goal :=
  {| id := n;
     inputs := set_field FgoalName ("New goal " ++ string_of_Z n)
                         initialInputs;
     results := None |}.

Definition addGoal (st : State) : State :=
  let ids := map id (goals st) in
  let maxId := match ids with [] => 0%Z | _ => max_of ids end in
  {| riskProfile := riskProfile st;
     goals := goals st ++ [newGoal (nextId (goals st))];
     activeGoalId := (maxId + 1)%Z;
     monthlyIncome := monthlyIncome st |}.

(** [removeGoal]. *)
Definition removeGoal (i : Z) (st : State) : State :=
  if (List.length (goals st) =? 1)%nat then st
  else
    let filtered := filter (fun g => negb (id g =? i)%Z) (goals st) in
    {| riskProfile := riskProfile st;
       goals := filtered;
       activeGoalId :=
         match filtered with
         | first :: _ =>
             if (activeGoalId st =? i)%Z then id first else activeGoalId st
         | [] => activeGoalId st
         end;
       monthlyIncome := monthlyIncome st |}.

(** [prev.map((g) => g.id === goalId ? { ...g, results:
    computeResults(g.inputs) } : g)]; [None] when a run of [computeResults]
    does not terminate. *)
Fixpoint calculate_goals (pow_frac : Qc -> Qc -> Qc) (goalId : Z)
    (prev : list Goal) : option (list Goal) :=
  match prev with
  | [] => Some []
  | g :: rest =>
      if (id g =? goalId)%Z then
        match computeResults pow_frac (inputs g) with
        | None => None
        | Some r =>
            option_map (cons (with_results g (Some r)))
                       (calculate_goals pow_frac goalId rest)
        end
      else option_map (cons g) (calculate_goals pow_frac goalId rest)
  end.

(** [calculateForGoal]. *)
Definition calculateForGoal (pow_frac : Qc -> Qc -> Qc) (goalId : Z)
    (st : State) : option State :=
  option_map (with_goals st) (calculate_goals pow_frac goalId (goals st)).

(** The message of [conflictMessage], with the percentage it prints. *)
Inductive Conflict : Type :=
| AddYourIncome
| CalculateYourGoals
| PracticallyUnhinged (requiredPct : num)
| AmbitiousButDoable (requiredPct : num)
| HealthyRange (requiredPct : num)
| PlayingItSafe (requiredPct : num).

Definition conflictMessage (monthlyIncome : string) (totalRequiredSip : num)
  : Conflict :=
  let monthlyIncomeNum := or_else (Number monthlyIncome) zero in
  if negb (truthy monthlyIncomeNum) || le monthlyIncomeNum zero
  then AddYourIncome
  else if negb (truthy totalRequiredSip) then CalculateYourGoals
  else
    let requiredPct := mul (div totalRequiredSip monthlyIncomeNum) (ofZ 100) in
    if gt requiredPct (ofZ 60) then PracticallyUnhinged requiredPct
    else if gt requiredPct (ofZ 40) then AmbitiousButDoable requiredPct
    else if gt requiredPct (ofZ 20) then HealthyRange requiredPct
    else PlayingItSafe requiredPct.

(** [Math.max(...values)]. *)
Definition Math_max_list (values : list num) : num :=
  fold_left Math_max values NInf.

(** [maxValueForChart]. *)
Definition maxValueForChart (st : State) : num :=
  match activeGoal st with
  | Some g =>
      match results g with
      | Some r =>
          match projection r with
          | [] => zero
          | _ => Math_max_list (map value (projection r))
          end
      | None => zero
      end
  | None => zero
  end.

(** The initial values of the four [useState] cells. *)
Definition initialState : State :=
  {| riskProfile := moderate;
     goals := [{| id := 1; inputs := initialInputs; results := None |}];
     activeGoalId := 1;
     monthlyIncome := "" |}.

End Planner.

(* ================================================================= *)
(** ** Notions used to state the properties *)

Module Spec.
Import JS Planner.

(** [Number(t) || 0], the coercion [computeResults] applies to each numeric
    field. *)
Definition norm (t : string) : num := or_else (Number t) zero.

(** The locals [months], [r] and [rm] of [computeResults]. *)
Definition months_of (inputs : Inputs) : num :=
  Math_max one (Math_round (mul (norm (years inputs)) (ofZ 12))).
Definition r_of (inputs : Inputs) : num :=
  div (norm (annualReturn inputs)) (ofZ 100).
Definition rm_of (inputs : Inputs) : num := div (r_of inputs) (ofZ 12).

Section Fields.

Variable pow_frac : Qc -> Qc -> Qc.
Variable inputs : Inputs.

(** The other locals of [computeResults], as functions of its argument;
    [computeResults_fields] below ties them to the fields it returns. *)
Definition inflationFactor_of : num :=
  if gt (norm (years inputs)) zero && gt (norm (inflationRate inputs)) zero
  then Math_pow pow_frac
         (add one (div (norm (inflationRate inputs)) (ofZ 100)))
         (norm (years inputs))
  else one.
Definition effectiveTarget_of : num :=
  mul (norm (targetAmount inputs)) inflationFactor_of.
Definition growth_of : num :=
  Math_pow pow_frac (add one (rm_of inputs)) (months_of inputs).
Definition fvLump_of : num :=
  if seq (r_of inputs) zero then norm (currentSavings inputs)
  else mul (norm (currentSavings inputs)) growth_of.
Definition fvSip_of : num :=
  if seq (r_of inputs) zero
  then mul (norm (monthlyContribution inputs)) (months_of inputs)
  else mul (norm (monthlyContribution inputs))
           (div (sub growth_of one) (rm_of inputs)).
Definition fvTotal_of : num := add fvLump_of fvSip_of.
Definition coverage_of : num :=
  if gt effectiveTarget_of zero then div fvTotal_of effectiveTarget_of
  else zero.
Definition monthlyRequired_of : num :=
  let needed := sub effectiveTarget_of fvLump_of in
  if le needed zero then zero
  else if seq (r_of inputs) zero then div needed (months_of inputs)
  else div (mul needed (rm_of inputs)) (sub growth_of one).
Definition projection_of (n : nat) : list ProjectionPoint :=
  trajectory (r_of inputs) (rm_of inputs) (norm (monthlyContribution inputs))
             (months_of inputs) n 1 (norm (currentSavings inputs)).

End Fields.

(** A normalized input in the sense of the data model: each of the six
    numeric fields normalizes to a finite number. *)
Definition finite_inputs (inputs : Inputs) : Prop :=
  finite (norm (targetAmount inputs))
  /\ finite (norm (years inputs))
  /\ finite (norm (inflationRate inputs))
  /\ finite (norm (currentSavings inputs))
  /\ finite (norm (monthlyContribution inputs))
  /\ finite (norm (annualReturn inputs)).

(** *** The required-contribution solver, as section 4.3 words it *)


(** *** The tier table of section 4.4, on finite numbers *)


(** *** Closed forms on finite values *)

Definition c100 : Qc := Q2Qc (inject_Z 100).
Definition c12 : Qc := Q2Qc (inject_Z 12).

(** The monthly rate [(annualReturn / 100) / 12]. *)
Definition monthly_rate (annualReturn : Qc) : Qc :=
  (annualReturn / c100 / c12)%Qc.

(** Growth factor over [n] months, lump-sum and contribution values. *)
Definition growth (A : Qc) (n : nat) : Qc := ((1 + monthly_rate A) ^ n)%Qc.
Definition lump (S A : Qc) (n : nat) : Qc :=
  if Qceqb A 0 then S else (S * growth A n)%Qc.
Definition sip (M A : Qc) (n : nat) : Qc :=
  if Qceqb A 0 then (M * Q2Qc (inject_Z (Z.of_nat n)))%Qc
  else (M * ((growth A n - 1) / monthly_rate A))%Qc.
Definition cover (E total : Qc) : Qc :=
  if Qcltb 0 E then (total / E)%Qc else 0%Qc.

(** The running [value] after [n] turns of the trajectory loop. *)
Definition value_after (r rm monthlyContribution : num) (n : nat) (v : num)
  : num :=
  Nat.iter n (grow r rm monthlyContribution) v.

(** Both runs return, with finite coverages in this order. *)
Definition coverage_le (pow_frac : Qc -> Qc -> Qc) (i1 i2 : Inputs) : Prop :=
  exists r1 r2 c1 c2,
    computeResults pow_frac i1 = Some r1
    /\ computeResults pow_frac i2 = Some r2
    /\ coverage r1 = Fin c1 /\ coverage r2 = Fin c2 /\ (c1 <= c2)%Qc.

(** *** Portfolio average and badge, as section 4.5 words them *)

(** A goal counts towards the average when it has Results with a positive
    coverage. *)
Definition qualifies (g : Goal) : bool :=
  match results g with
  | Some res => gt (coverage res) zero
  | None => false
  end.

Definition coverage_or_zero (g : Goal) : num :=
  match results g with
  | Some res => coverage res
  | None => zero
  end.

Definition qualifying_coverages (goals : list Goal) : list num :=
  map coverage_or_zero (filter qualifies goals).

Definition sum_list (l : list num) : num := fold_left add l zero.

Definition mean (l : list num) : num :=
  div (sum_list l) (ofZ (Z.of_nat (List.length l))).

(** The badge tiers for a positive average. *)
Definition badge_table (avg : num) (b : Badge) : Prop :=
  (lt avg (dec 7 10) = true -> b = HighRiskOfShortfall)
  /\ (ge avg (dec 7 10) = true -> lt avg one = true -> b = BadgeAlmostThere)
  /\ (ge avg one = true -> lt avg (dec 6 5) = true -> b = BadgeOnTrack)
  /\ (ge avg (dec 6 5) = true -> b = Overprepared).

(** One suggestion of the priority-weighted allocation. *)
Definition suggestion_spec (monthlyIncome : string) (goals : list Goal)
    (g : Goal) : Suggestion :=
  {| sug_id := id g;
     sug_name := suggestion_name g;
     suggestedSip :=
       Math_round
         (mul (div (norm_priority g) (sum_list (map norm_priority goals)))
              (mul (dec 2 5) (norm monthlyIncome))) |}.

(** *** The scenario inputs, as section 4.6 words them *)

Definition plus2Years_spec (base : Inputs) : Inputs :=
  with_years base (toString (add (norm (years base)) (ofZ 2))).
Definition plus2kSip_spec (base : Inputs) : Inputs :=
  with_monthlyContribution base
    (toString (add (norm (monthlyContribution base)) (ofZ 2000))).
Definition minus2LTarget_spec (base : Inputs) : Inputs :=
  with_targetAmount base
    (toString (Math_max zero (sub (norm (targetAmount base)) (ofZ 200000)))).

(** [Number] reads [v] back from the text that [toString] writes for it, as
    ECMAScript has it for every number. *)
Definition reads_back (v : num) : Prop := Number (toString v) = v.

(** *** Concrete inputs *)

(** A stand-in for [Math.pow] at fractional exponents, for runs that never
    reach one (an integer horizon, or no inflation). *)
Definition pow_unused : Qc -> Qc -> Qc := fun _ _ => 1%Qc.

Definition goal_inputs (target yrs savings contribution ret infl : string)
  : Inputs :=
  {| goalName := "Goal"; goalType := "Other";
     targetAmount := target; years := yrs; currentSavings := savings;
     monthlyContribution := contribution; annualReturn := ret;
     inflationRate := infl; monthsInvested := "0"; priority := "3" |}.

(** The scenario of section 8: 1,500,000 in 5 years at 5% inflation, 50,000
    saved, 10,000 a month, 12% return. *)
Definition spec_scenario : Inputs :=
  goal_inputs "1500000" "5" "50000" "10000" "12" "5".

(** The zero-return scenario of section 8. *)
Definition zero_return_scenario : Inputs :=
  goal_inputs "22000" "1" "10000" "1000" "0" "0".

(** A return of -3600% a year, that is -300% a month, over half a year:
    target 2100, nothing saved, nothing contributed. *)
Definition steep_loss : Inputs :=
  goal_inputs "2100" "0.5" "0" "0" "-3600" "0".

(** The same return over a quarter of a year. *)
Definition steep_loss_quarter : Inputs :=
  goal_inputs "2100" "0.25" "0" "0" "-3600" "0".

(** The text [Infinity]. *)
Definition text_Infinity : string := "Infinity".

(** A goal whose horizon field reads [-2]. *)
Definition backdated : Goal :=
  {| id := 1;
     inputs := goal_inputs "100000" "-2" "0" "1000" "0" "0";
     results := None |}.

(** The integer part of a finite number, to show values. *)
Definition floor_of (v : num) : option Z :=
  match v with
  | Fin q => Some (Qfloor q)
  | _ => None
  end.

(** The required contribution of [inputs] is negative. *)
Definition negative_requirement (inputs : Inputs) : Prop :=
  forall pow_frac : Qc -> Qc -> Qc,
  exists res v,
    computeResults pow_frac inputs = Some res
    /\ monthlyRequired res = Some v
    /\ lt v zero = true.

(** Coverage is strictly smaller for [i2] than for [i1]. *)
Definition coverage_drops (i1 i2 : Inputs) : Prop :=
  forall pow_frac : Qc -> Qc -> Qc,
  exists r1 r2,
    computeResults pow_frac i1 = Some r1
    /\ computeResults pow_frac i2 = Some r2
    /\ lt (coverage r2) (coverage r1) = true.

(** The first scenario of [g] is not the run on [years + 2]: the two differ
    in the future value of the contributions. *)
Definition plus2Years_off (g : Goal) : Prop :=
  forall pow_frac : Qc -> Qc -> Qc,
  exists s e,
    scenarioResults pow_frac (Some g) = Some (Some s)
    /\ computeResults pow_frac (plus2Years_spec (inputs g)) = Some e
    /\ seq (fvSip (scenarioPlus2Years s)) (fvSip e) = false.

(** *** Vocabulary for the properties of the calculator *)

(** The loop counters [m, m + 1, ...] of [n] turns. *)
Definition counters (m : Z) (n : nat) : list Z :=
  map (fun i => (m + Z.of_nat i)%Z) (List.seq 0 n).

(** The sampling rule of the projection for a horizon of [n] months. *)
Definition sample_month (n m : Z) : bool :=
  (m =? 1)%Z || (Z.rem m 6 =? 0)%Z || (m =? n)%Z.


(** *** Vocabulary for the properties of the handlers *)

(** What an edit of [field] to [value] does to one goal, [a_id] being the
    identifier of the active goal. *)
Definition edited (field : Field) (value : string) (a_id : Z)
    (g g' : Goal) : Prop :=
  id g' = id g /\ results g' = results g
  /\ (id g <> a_id -> g' = g)
  /\ (id g = a_id ->
      get_field field (inputs g') = value
      /\ forall other, other <> field ->
           get_field other (inputs g') = get_field other (inputs g)).

(** What calculating the goals numbered [goalId] does to one goal. *)
Definition calculated (pf : Qc -> Qc -> Qc) (goalId : Z) (g g' : Goal)
  : Prop :=
  id g' = id g /\ inputs g' = inputs g
  /\ (id g <> goalId -> g' = g)
  /\ (id g = goalId -> results g' = computeResults pf (inputs g)
                       /\ results g' <> None).

(** The four fields that are no operand of the calculator. *)
Definition descriptive (field : Field) : bool :=
  match field with
  | FgoalName | FgoalType | FmonthsInvested | Fpriority => true
  | _ => false
  end.

(** A goal that adds nothing to the required total: no results, no stored
    requirement, or a stored requirement that is not positive. *)
Definition needs_nothing (g : Goal) : Prop :=
  forall res, results g = Some res ->
    monthlyRequired res = None
    \/ exists q, monthlyRequired res = Some (Fin q) /\ (q <= 0)%Qc.

(** The clamped priority of a goal as a rational, sums over lists, the
    budget of 40% of an income [I], and the share of a goal when the
    priorities add up to [s]. *)
Definition qc_of (v : num) : Qc := match v with Fin q => q | _ => 0%Qc end.
Definition weight (g : Goal) : Qc := qc_of (norm_priority g).
Definition sumQc (l : list Qc) : Qc := fold_right Qcplus 0%Qc l.
Definition safeMax_of (I : Qc) : Qc := (I * Q2Qc (2 # 5))%Qc.
Definition share_of (I s : Qc) (g : Goal) : Qc :=
  (weight g / s * safeMax_of I)%Qc.
Definition suggestion_for (I s : Qc) (g : Goal) : Suggestion :=
  {| sug_id := id g;
     sug_name := suggestion_name g;
     suggestedSip := ofZ (round_half_up (share_of I s g)) |}.

(** The initial state after one click on "add goal". *)
Definition two_goals : State := addGoal initialState.

(** A state whose only goal is the scenario of section 8, calculated. *)
Definition charted : State :=
  {| riskProfile := moderate;
     goals := [{| id := 1; inputs := spec_scenario;
                  results := computeResults pow_unused spec_scenario |}];
     activeGoalId := 1;
     monthlyIncome := "" |}.

(** *** Horizons the source runs *)

(** The loop of [computeResults] takes [months] turns and keeps a point for
    about one month in six.  Section 5 of the specification counts on a few
    thousand turns, for horizons of a few hundred years; [horizon_limit] is
    1000 years.  For such a horizon the counter [m] stays exact, the array
    of points far below the largest array length and the argument list of
    [Math.max(...)] far below what an engine accepts.  [turns] does not
    model these limits: it counts the turns of any finite horizon. *)
Definition horizon_limit : Z := 12000.
Definition within_horizon (inputs : Inputs) : Prop :=
  le (months_of inputs) (ofZ horizon_limit) = true.

(** *** Coverage that does not fall *)

(** Both runs return when the horizon is within [horizon_limit]; whenever
    they return, each stores the coverage of its own inputs, and the
    coverage of [i2] is not below that of [i1]: the two are ordered, or one
    of them is [NaN]. *)
Definition coverage_not_lower (pow_frac : Qc -> Qc -> Qc) (i1 i2 : Inputs)
  : Prop :=
  (within_horizon i1 ->
   exists r1 r2, computeResults pow_frac i1 = Some r1
                 /\ computeResults pow_frac i2 = Some r2)
  /\ forall r1 r2,
       computeResults pow_frac i1 = Some r1 ->
       computeResults pow_frac i2 = Some r2 ->
       coverage r1 = coverage_of pow_frac i1
       /\ coverage r2 = coverage_of pow_frac i2
       /\ lt (coverage r2) (coverage r1) = false.

(** *** The priority of sections 4.1 and 4.5 *)

(** The normalized priority text, clamped into [[1,5]]. *)
Definition priority_spec (t : string) : num :=
  let p := norm t in
  if lt p one then one else if gt p (ofZ 5) then ofZ 5 else p.

(** The suggestion of section 4.5 for goal [g], from the texts alone:
    [(priority / sum of priorities) * (0.4 * income)], rounded. *)
Definition allocation_spec (monthlyIncome : string) (goals : list Goal)
    (g : Goal) : Suggestion :=
  {| sug_id := id g;
     sug_name := suggestion_name g;
     suggestedSip :=
       Math_round
         (mul (div (priority_spec (priority (inputs g)))
                   (sum_list
                      (map (fun h => priority_spec (priority (inputs h)))
                           goals)))
              (mul (dec 2 5) (norm monthlyIncome))) |}.

(** *** The tier of a coverage *)

(** The table of section 4.4 below its first row, read on the coverage. *)
Definition tier_of_coverage (c : num) : Health :=
  if lt c (dec 1 2) then VeryWeak
  else if lt c (dec 4 5) then NeedsWork
  else if lt c one then AlmostThere
  else if lt c (dec 13 10) then OnTrack
  else Overachiever.

End Spec.

(* ================================================================= *)
(** ** Facts about the number model *)

Module JSFacts.
Import JS.

(** *** Boolean comparisons on [Qc] *)

Lemma Qceqb_eq (x y : Qc) : Qceqb x y = true <-> x = y.
Proof.
  unfold Qceqb. rewrite Qceq_alt.
  destruct (x ?= y)%Qc; split; congruence.
Qed.

Lemma Qceqb_neq (x y : Qc) : Qceqb x y = false <-> x <> y.
Proof.
  rewrite <- Qceqb_eq. destruct (Qceqb x y); split; congruence.
Qed.

Lemma Qcltb_lt (x y : Qc) : Qcltb x y = true <-> (x < y)%Qc.
Proof.
  unfold Qcltb. rewrite Qclt_alt.
  destruct (x ?= y)%Qc; split; congruence.
Qed.

Lemma Qcltb_ge (x y : Qc) : Qcltb x y = false <-> (y <= x)%Qc.
Proof.
  split; intro H.
  - apply Qcnot_lt_le. rewrite <- Qcltb_lt. congruence.
  - apply not_true_is_false. rewrite Qcltb_lt. now apply Qcle_not_lt.
Qed.

Lemma Qcleb_le (x y : Qc) : Qcleb x y = true <-> (x <= y)%Qc.
Proof.
  unfold Qcleb. rewrite Qcle_alt.
  destruct (x ?= y)%Qc; split; congruence.
Qed.

Lemma Qcleb_gt (x y : Qc) : Qcleb x y = false <-> (y < x)%Qc.
Proof.
  split; intro H.
  - apply Qcnot_le_lt. rewrite <- Qcleb_le. congruence.
  - apply not_true_is_false. rewrite Qcleb_le. now apply Qclt_not_le.
Qed.

(** *** From [Qc] to [Q], where [lra] and [nra] work *)

Lemma this_Q2Qc (q : Q) : (this (Q2Qc q) == q)%Q.
Proof. apply Qred_correct. Qed.

Lemma this_inject_Z (z : Z) : this (Q2Qc (inject_Z z)) = inject_Z z.
Proof.
  change (Qred (inject_Z z) = inject_Z z).
  apply Qred_identity. simpl. apply Z.gcd_1_r.
Qed.

Ltac to_Q :=
  unfold Qcle, Qclt, Qcdiv, Qcminus, Qcinv, Qcopp, Qcplus, Qcmult in *;
  repeat match goal with
         | H : context [this (Q2Qc ?q)] |- _ => rewrite (this_Q2Qc q) in H
         | |- context [this (Q2Qc ?q)] => rewrite (this_Q2Qc q)
         end.

Lemma Qc_eq_Q (x y : Qc) : x = y <-> (this x == this y)%Q.
Proof.
  split; [intros ->; reflexivity | apply Qc_is_canon].
Qed.

(** *** Integers as numbers *)

Lemma ofZ_neq_0 (k : Z) : (k <> 0)%Z -> Q2Qc (inject_Z k) <> 0%Qc.
Proof.
  intros Hk E. apply Qc_eq_Q in E. rewrite this_inject_Z in E.
  change (this 0%Qc) with (inject_Z 0) in E.
  apply Hk. now apply (proj1 (inject_Z_injective k 0)).
Qed.

Lemma ofZ_succ (n : nat) :
  Q2Qc (inject_Z (Z.of_nat (S n))) = (Q2Qc (inject_Z (Z.of_nat n)) + 1)%Qc.
Proof.
  apply Qc_is_canon. to_Q. rewrite Nat2Z.inj_succ. unfold Z.succ.
  rewrite inject_Z_plus. reflexivity.
Qed.

Lemma seq_ofZ_refl (z : Z) : seq (ofZ z) (ofZ z) = true.
Proof. now apply Qceqb_eq. Qed.

(** *** Powers *)

Lemma Qcpower_S (x : Qc) (n : nat) : (x ^ S n = x * x ^ n)%Qc.
Proof. reflexivity. Qed.

Lemma Qcpower_abs_le_1 (x : Qc) (n : nat) :
  (- (1) <= x)%Qc -> (x <= 1)%Qc -> (- (1) <= x ^ n)%Qc /\ (x ^ n <= 1)%Qc.
Proof.
  intros Hl Hu. induction n as [|n [IHl IHu]].
  - simpl. split; to_Q; lra.
  - rewrite Qcpower_S. generalize dependent (x ^ n)%Qc. intros y IHl IHu.
    split; to_Q; nra.
Qed.

Lemma Qcpower_gt_1 (x : Qc) (n : nat) :
  (1 < x)%Qc -> (1 <= n)%nat -> (1 < x ^ n)%Qc.
Proof.
  intros Hx Hn. destruct n as [|n]; [lia|]. clear Hn.
  induction n as [|n IH].
  - simpl. rewrite Qcmult_1_r. exact Hx.
  - rewrite Qcpower_S. generalize dependent (x ^ S n)%Qc. intros y IH.
    to_Q. nra.
Qed.

Lemma Qcpower_lt_1 (x : Qc) (n : nat) :
  (- (1) < x)%Qc -> (x < 1)%Qc -> (1 <= n)%nat -> (x ^ n < 1)%Qc.
Proof.
  intros Hl Hu Hn. destruct n as [|n]; [lia|]. clear Hn.
  rewrite Qcpower_S.
  destruct (Qcpower_abs_le_1 x n) as [Pl Pu];
    [now apply Qclt_le_weak | now apply Qclt_le_weak |].
  generalize dependent (x ^ n)%Qc. intros y Pl Pu.
  to_Q. destruct (Qlt_le_dec x 0); nra.
Qed.

(** *** Signs of quotients *)

Lemma Qinv_neg (b : Q) : (b < 0)%Q -> (/ b < 0)%Q.
Proof.
  destruct b as [[|p|p] d]; unfold Qlt, Qinv; simpl; lia.
Qed.

Lemma Qcdiv_pos_pos (a b : Qc) : (0 < a)%Qc -> (0 < b)%Qc -> (0 < a / b)%Qc.
Proof.
  intros Ha Hb. to_Q.
  assert (H := Qinv_lt_0_compat b Hb). nra.
Qed.

Lemma Qcdiv_neg_neg (a b : Qc) : (a < 0)%Qc -> (b < 0)%Qc -> (0 < a / b)%Qc.
Proof.
  intros Ha Hb. to_Q.
  assert (H := Qinv_neg b Hb). nra.
Qed.

Lemma Qcdiv_nonneg_pos (a b : Qc) :
  (0 <= a)%Qc -> (0 < b)%Qc -> (0 <= a / b)%Qc.
Proof.
  intros Ha Hb. to_Q.
  assert (H := Qinv_lt_0_compat b Hb). nra.
Qed.

Lemma Qcdiv_nonpos_neg (a b : Qc) :
  (a <= 0)%Qc -> (b < 0)%Qc -> (0 <= a / b)%Qc.
Proof.
  intros Ha Hb. to_Q.
  assert (H := Qinv_neg b Hb). nra.
Qed.

(** *** The operators on finite and on positive numbers *)

Lemma finite_inv (v : num) : finite v -> exists q, v = Fin q.
Proof. destruct v; simpl; try contradiction. eauto. Qed.

Lemma div_Fin (x y : Qc) : y <> 0%Qc -> div (Fin x) (Fin y) = Fin (x / y)%Qc.
Proof. intro H. unfold div. now rewrite (proj2 (Qceqb_neq _ _) H). Qed.

Lemma seq_zero_div (r : num) (k : Z) :
  (k <> 0)%Z -> seq (div r (ofZ k)) zero = seq r zero.
Proof.
  intro Hk.
  assert (Hk' : Q2Qc (inject_Z k) <> 0%Qc).
  { intro E. apply Qc_eq_Q in E. rewrite this_inject_Z in E.
    change (this 0%Qc) with (inject_Z 0) in E.
    apply Hk. now apply (proj1 (inject_Z_injective k 0)). }
  destruct r as [| | |q]; try reflexivity.
  1,2: unfold div, ofZ;
    match goal with |- context [inf ?b] => destruct b end; reflexivity.
  - unfold div, ofZ. rewrite (proj2 (Qceqb_neq _ _) Hk').
    unfold seq, zero, ofZ.
    destruct (Qceqb q _) eqn:E.
    + apply Qceqb_eq in E. subst q. apply Qceqb_eq.
      unfold Qcdiv. apply Qcmult_0_l.
    + apply Qceqb_neq. apply Qceqb_neq in E. intro H. apply E.
      unfold Qcdiv in H. apply Qcmult_integral in H.
      destruct H as [H|H]; [exact H|].
      exfalso. apply (Qcmult_inv_r) in Hk'. rewrite H in Hk'.
      rewrite Qcmult_0_r in Hk'. discriminate.
Qed.

Lemma mul_comm (a b : num) : mul a b = mul b a.
Proof.
  destruct a as [| | |x], b as [| | |y]; try reflexivity;
    unfold mul;
    rewrite ?(orb_comm (is_zero (Fin _))), ?(xorb_comm (negative (Fin _)));
    try reflexivity.
  now rewrite Qcmult_comm.
Qed.

(** A positive number: [+Infinity] or a positive rational. *)
Lemma gt_zero_inv (v : num) :
  gt v zero = true -> v = PInf \/ exists q, v = Fin q /\ (0 < q)%Qc.
Proof.
  destruct v as [| | |q]; try discriminate; [auto|].
  intro H. right. exists q. split; [reflexivity|]. now apply Qcltb_lt.
Qed.

Lemma add_positive (a c : num) :
  a = zero \/ gt a zero = true -> gt c zero = true ->
  gt (add a c) zero = true.
Proof.
  intros Ha Hc. apply gt_zero_inv in Hc.
  destruct Ha as [->|Ha].
  - destruct Hc as [->|(q & -> & Hq)]; [reflexivity|].
    apply Qcltb_lt. change (Q2Qc (inject_Z 0)) with 0%Qc. to_Q. lra.
  - apply gt_zero_inv in Ha.
    destruct Ha as [->|(p & -> & Hp)], Hc as [->|(q & -> & Hq)];
      try reflexivity.
    apply Qcltb_lt. change (Q2Qc (inject_Z 0)) with 0%Qc. to_Q. lra.
Qed.

Lemma Math_pow_nat (pf : Qc -> Qc -> Qc) (b : Qc) (n : nat) :
  (1 <= n)%nat -> Math_pow pf (Fin b) (ofZ (Z.of_nat n)) = Fin (b ^ n)%Qc.
Proof.
  intro Hn. unfold Math_pow, ofZ.
  assert (Hz : is_zero (Fin (Q2Qc (inject_Z (Z.of_nat n)))) = false).
  { apply Qceqb_neq. apply ofZ_neq_0. lia. }
  rewrite Hz.
  assert (Hpos : Qcltb (Q2Qc (inject_Z 0)) (Q2Qc (inject_Z (Z.of_nat n)))
                 = true).
  { apply Qcltb_lt. unfold Qclt. rewrite !this_inject_Z, <- Zlt_Qlt. lia. }
  destruct (Qceqb b 0) eqn:Eb.
  - apply Qceqb_eq in Eb. subst b. unfold gt, lt, zero, ofZ. rewrite Hpos.
    rewrite Qcpower_0 by lia. reflexivity.
  - unfold pow_finite, is_integer. rewrite this_inject_Z. simpl Qden.
    rewrite Pos.eqb_refl. change (Q2Qc (inject_Z 0)) with 0%Qc in Hpos.
    rewrite Hpos. simpl Qnum. now rewrite Nat2Z.id.
Qed.

Lemma Math_pow_pos (pf : Qc -> Qc -> Qc) (b e : Qc) :
  (0 < b)%Qc -> (0 < e)%Qc -> exists q, Math_pow pf (Fin b) (Fin e) = Fin q.
Proof.
  intros Hb He. unfold Math_pow.
  replace (is_zero (Fin e)) with false
    by (symmetry; apply Qceqb_neq; intros ->; now apply (Qclt_not_eq _ _ He)).
  replace (Qceqb b 0) with false
    by (symmetry; apply Qceqb_neq; intros ->; now apply (Qclt_not_eq _ _ Hb)).
  unfold pow_finite.
  rewrite (proj2 (Qcltb_lt 0 e) He).
  rewrite (proj2 (Qcltb_ge b 0) (Qclt_le_weak _ _ Hb)).
  destruct (is_integer e); eauto.
Qed.

End JSFacts.

(* ================================================================= *)
(** ** Properties of the planner *)

Module Properties.
Import JS Planner Spec JSFacts.

(** *** Normalization of a field *)

Lemma norm_cases (t : string) :
  (Number t = NaN /\ norm t = zero)
  \/ (Number t = Fin 0%Qc /\ norm t = zero)
  \/ (Number t <> NaN /\ Number t <> Fin 0%Qc /\ norm t = Number t).
Proof.
  unfold norm, or_else. destruct (Number t) as [| | |q]; simpl; auto.
  - right; right. repeat split; congruence.
  - right; right. repeat split; congruence.
  - destruct (Qceqb q 0) eqn:E; simpl.
    + apply Qceqb_eq in E. subst q. auto.
    + apply Qceqb_neq in E. right; right. repeat split; congruence.
Qed.

Lemma norm_not_NaN (t : string) : norm t <> NaN.
Proof.
  destruct (norm_cases t) as [[_ H]|[[_ H]|(H1 & _ & H)]]; rewrite H;
    [discriminate | discriminate | exact H1].
Qed.

Lemma norm_PInf (t : string) : norm t = PInf <-> Number t = PInf.
Proof.
  destruct (norm_cases t) as [[E H]|[[E H]|(H1 & _ & H)]]; rewrite H;
    [rewrite E | rewrite E |]; split; try discriminate; auto.
Qed.

Lemma norm_Fin (t : string) (q : Qc) : Number t = Fin q -> norm t = Fin q.
Proof.
  intro Hq.
  destruct (norm_cases t) as [[E _]|[[E H]|(_ & _ & H)]];
    [congruence | | congruence].
  rewrite H, <- Hq, E. reflexivity.
Qed.

Lemma norm_priority_range (g : Goal) :
  exists p : Qc, norm_priority g = Fin p /\ (1 <= p <= Q2Qc (inject_Z 5))%Qc.
Proof.
  unfold norm_priority, or_else.
  destruct (Number (priority (inputs g))) as [| | |q]; cbn [truthy].
  - exists 1%Qc. split; [reflexivity|]. split; to_Q; unfold inject_Z; lra.
  - exists (Q2Qc (inject_Z 5)). split; [reflexivity|].
    split; to_Q; unfold inject_Z; lra.
  - exists 1%Qc. split; [reflexivity|]. split; to_Q; unfold inject_Z; lra.
  - assert (H : forall x : Qc, exists p : Qc,
               Math_max one (Math_min (ofZ 5) (Fin x)) = Fin p
               /\ (1 <= p <= Q2Qc (inject_Z 5))%Qc).
    { intro x. unfold Math_min, ofZ, lt.
      destruct (Qcltb x _) eqn:E5; unfold Math_max, one, ofZ, lt.
      - destruct (Qcltb _ x) eqn:E1.
        + exists x. split; [reflexivity|].
          apply Qcltb_lt in E5, E1. split; apply Qclt_le_weak; assumption.
        + exists (Q2Qc (inject_Z 1)). split; [reflexivity|].
          split; to_Q; unfold inject_Z; lra.
      - exists (Q2Qc (inject_Z 5)). split; [reflexivity|].
        split; to_Q; unfold inject_Z; lra. }
    destruct (negb (Qceqb q 0)); apply H.
Qed.

(** *** The loop bound *)

(** The loop bound is infinite only for an infinite horizon. *)
Lemma months_of_shape (inputs : Inputs) :
  (Number (years inputs) = PInf /\ months_of inputs = PInf)
  \/ exists z, (1 <= z)%Z /\ months_of inputs = ofZ z.
Proof.
  unfold months_of.
  destruct (norm_cases (years inputs)) as [[_ H]|[[_ H]|(H1 & _ & H)]];
    rewrite H.
  1,2: right; exists 1%Z; split; [lia | reflexivity].
  destruct (Number (years inputs)) as [| | |q]; try congruence.
  - left. split; reflexivity.
  - right. exists 1%Z. split; [lia | reflexivity].
  - right. simpl. unfold Math_max, one, ofZ, lt.
    destruct (Qcltb _ _) eqn:E.
    + eexists; split; [|reflexivity].
      apply Qcltb_lt in E. unfold Qclt in E.
      rewrite !this_inject_Z in E. rewrite <- Zlt_Qlt in E. lia.
    + exists 1%Z. split; [lia | reflexivity].
Qed.

Lemma turns_ofZ (z : Z) : turns (ofZ z) = Some (Z.to_nat z).
Proof.
  unfold turns, ofZ. rewrite this_inject_Z. now rewrite Qfloor_Z.
Qed.

Lemma turns_months (inputs : Inputs) :
  Number (years inputs) <> PInf ->
  exists n, (1 <= n)%nat /\ months_of inputs = ofZ (Z.of_nat n)
            /\ turns (months_of inputs) = Some n.
Proof.
  intro Hy. destruct (months_of_shape inputs) as [[E _]|(z & Hz & E)];
    [contradiction|].
  exists (Z.to_nat z). rewrite E, turns_ofZ, Z2Nat.id by lia.
  repeat split. lia.
Qed.

(** *** The fields of [computeResults] *)

Lemma computeResults_fields
    (pow_frac : Qc -> Qc -> Qc) (inputs : Inputs) (n : nat) :
  turns (months_of inputs) = Some n ->
  computeResults pow_frac inputs =
  Some {| fvLump := fvLump_of pow_frac inputs;
          fvSip := fvSip_of pow_frac inputs;
          fvTotal := fvTotal_of pow_frac inputs;
          gap := sub (fvTotal_of pow_frac inputs)
                     (effectiveTarget_of pow_frac inputs);
          monthlyRequired := Some (monthlyRequired_of pow_frac inputs);
          projection := projection_of inputs n;
          health := getHealthScore (fvTotal_of pow_frac inputs)
                                   (effectiveTarget_of pow_frac inputs);
          coverage := coverage_of pow_frac inputs;
          effectiveTarget := effectiveTarget_of pow_frac inputs |}.
Proof.
  intro Hn. unfold computeResults.
  fold (norm (years inputs)). fold (months_of inputs). rewrite Hn.
  unfold monthlyRequired_of, coverage_of, fvTotal_of, fvSip_of, fvLump_of,
    effectiveTarget_of, inflationFactor_of, growth_of, projection_of,
    months_of, rm_of, r_of, norm.
  cbv zeta.
  repeat match goal with
         | |- context [if ?c then Some _ else _] => destruct c
         end; reflexivity.
Qed.

(** *** Finite inputs *)

Lemma rates_fin (inputs : Inputs) (A : Qc) :
  norm (annualReturn inputs) = Fin A ->
  r_of inputs = Fin (A / c100)%Qc
  /\ rm_of inputs = Fin (monthly_rate A)
  /\ seq (r_of inputs) zero = Qceqb A 0.
Proof.
  intro HA. unfold rm_of.
  assert (Hr : r_of inputs = Fin (A / c100)%Qc).
  { unfold r_of. rewrite HA. apply div_Fin. now apply ofZ_neq_0. }
  split; [exact Hr|]. split.
  - rewrite Hr. apply div_Fin. now apply ofZ_neq_0.
  - unfold r_of. rewrite seq_zero_div by discriminate. now rewrite HA.
Qed.

Lemma monthly_rate_0 (A : Qc) : monthly_rate A = 0%Qc <-> A = 0%Qc.
Proof.
  unfold monthly_rate. split.
  - intro H.
    assert (H12 : c12 <> 0%Qc) by now apply ofZ_neq_0.
    assert (H100 : c100 <> 0%Qc) by now apply ofZ_neq_0.
    assert (E : (A = A / c100 / c12 * c12 * c100)%Qc)
      by (field; split; assumption).
    rewrite E, H. ring.
  - intros ->. unfold Qcdiv. now rewrite !Qcmult_0_l.
Qed.

Lemma effectiveTarget_fin (pf : Qc -> Qc -> Qc) (inputs : Inputs) :
  finite (norm (targetAmount inputs)) ->
  finite (norm (years inputs)) ->
  finite (norm (inflationRate inputs)) ->
  exists E, effectiveTarget_of pf inputs = Fin E.
Proof.
  intros HT HY HI.
  apply finite_inv in HT, HY, HI.
  destruct HT as [T HT], HY as [Y HY], HI as [I HI].
  unfold effectiveTarget_of, inflationFactor_of. rewrite HT, HY, HI.
  destruct (gt (Fin Y) zero) eqn:EY; [|simpl; eauto].
  destruct (gt (Fin I) zero) eqn:EI; [|simpl; eauto].
  cbn [andb].
  apply Qcltb_lt in EY, EI.
  unfold ofZ. rewrite div_Fin by now apply ofZ_neq_0.
  destruct (Math_pow_pos pf (Q2Qc (inject_Z 1) + I / Q2Qc (inject_Z 100))%Qc Y)
    as [q Hq].
  - change (this (Q2Qc (inject_Z 0))) with (this 0%Qc) in *.
    apply Qclt_trans with (y := 1%Qc); [to_Q; lra|].
    assert (0 < I / Q2Qc (inject_Z 100))%Qc
      by (apply Qcdiv_pos_pos; [exact EI | to_Q; unfold inject_Z; lra]).
    to_Q. unfold inject_Z in *. lra.
  - exact EY.
  - unfold add at 1. unfold one, ofZ. rewrite Hq. simpl. eauto.
Qed.

Lemma growth_of_fin (pf : Qc -> Qc -> Qc) (inputs : Inputs) (A : Qc) (n : nat) :
  norm (annualReturn inputs) = Fin A ->
  months_of inputs = ofZ (Z.of_nat n) -> (1 <= n)%nat ->
  growth_of pf inputs = Fin (growth A n).
Proof.
  intros HA Hm Hn. unfold growth_of.
  destruct (rates_fin inputs A HA) as (_ & -> & _). rewrite Hm.
  unfold add, one, ofZ. fold (ofZ (Z.of_nat n)).
  now rewrite Math_pow_nat.
Qed.

Lemma finite_fields (pf : Qc -> Qc -> Qc) (inputs : Inputs) :
  finite_inputs inputs ->
  exists (n : nat) (E S M A : Qc),
    (1 <= n)%nat
    /\ turns (months_of inputs) = Some n
    /\ months_of inputs = ofZ (Z.of_nat n)
    /\ effectiveTarget_of pf inputs = Fin E
    /\ norm (currentSavings inputs) = Fin S
    /\ norm (monthlyContribution inputs) = Fin M
    /\ norm (annualReturn inputs) = Fin A
    /\ fvLump_of pf inputs = Fin (lump S A n)
    /\ fvSip_of pf inputs = Fin (sip M A n).
Proof.
  intros (HT & HY & HI & HS & HM & HA).
  destruct (effectiveTarget_fin pf inputs HT HY HI) as [E HE].
  assert (Hy : Number (years inputs) <> PInf).
  { intro H. apply norm_PInf in H. rewrite H in HY. exact HY. }
  destruct (turns_months inputs Hy) as (n & Hn & Hm & Ht).
  apply finite_inv in HS, HM, HA.
  destruct HS as [S HS], HM as [M HM], HA as [A HA].
  exists n, E, S, M, A.
  repeat (split; [assumption|]).
  destruct (rates_fin inputs A HA) as (_ & Hrm & Hseq).
  unfold fvLump_of, fvSip_of, lump, sip. rewrite Hseq, HS, HM.
  rewrite (growth_of_fin pf inputs A n HA Hm Hn), Hrm, Hm.
  destruct (Qceqb A 0) eqn:EA; [split; reflexivity|].
  split; [reflexivity|].
  apply Qceqb_neq in EA.
  unfold sub, neg, one, ofZ. cbn [add].
  rewrite div_Fin; [reflexivity|].
  intro H. apply EA. now apply monthly_rate_0.
Qed.

Lemma coverage_of_fin (pf : Qc -> Qc -> Qc) (inputs : Inputs) (E L P : Qc) :
  effectiveTarget_of pf inputs = Fin E ->
  fvLump_of pf inputs = Fin L -> fvSip_of pf inputs = Fin P ->
  fvTotal_of pf inputs = Fin (L + P)%Qc
  /\ coverage_of pf inputs = Fin (cover E (L + P)).
Proof.
  intros HE HL HP. unfold coverage_of, fvTotal_of, cover.
  rewrite HE, HL, HP. cbn [add]. split; [reflexivity|].
  unfold gt, lt, zero, ofZ. change (Q2Qc (inject_Z 0)) with 0%Qc.
  destruct (Qcltb 0 E) eqn:HE0; [|reflexivity].
  apply div_Fin. apply Qcltb_lt in HE0. intros ->.
  now apply (Qclt_not_eq _ _ HE0).
Qed.

Lemma coverage_closed (pf : Qc -> Qc -> Qc) (inputs : Inputs) :
  finite_inputs inputs ->
  exists (n : nat) (E S M A : Qc) (res : Results),
    (1 <= n)%nat
    /\ turns (months_of inputs) = Some n
    /\ effectiveTarget_of pf inputs = Fin E
    /\ norm (currentSavings inputs) = Fin S
    /\ norm (monthlyContribution inputs) = Fin M
    /\ norm (annualReturn inputs) = Fin A
    /\ computeResults pf inputs = Some res
    /\ fvTotal res = Fin (lump S A n + sip M A n)%Qc
    /\ coverage res = Fin (cover E (lump S A n + sip M A n)).
Proof.
  intro Hfin.
  destruct (finite_fields pf inputs Hfin)
    as (n & E & S & M & A & Hn & Ht & Hm & HE & HS & HM & HA & HL & HP).
  destruct (coverage_of_fin pf inputs E _ _ HE HL HP) as [Htot Hcov].
  exists n, E, S, M, A. eexists.
  repeat (split; [eassumption|]).
  split; [apply (computeResults_fields pf inputs n Ht)|].
  split; [exact Htot | exact Hcov].
Qed.

(* ----------------------------------------------------------------- *)
(** *** Returning, and what a returned record holds *)

Lemma computeResults_none (pf : Qc -> Qc -> Qc) (inputs : Inputs) :
  computeResults pf inputs = None <-> Number (years inputs) = PInf.
Proof.
  split.
  - intro H.
    destruct (months_of_shape inputs) as [[E _]|(z & Hz & E)]; [exact E|].
    assert (Ht : turns (months_of inputs) = Some (Z.to_nat z))
      by (rewrite E; apply turns_ofZ).
    rewrite (computeResults_fields pf inputs _ Ht) in H. discriminate.
  - intro H. unfold computeResults. rewrite H. reflexivity.
Qed.

Lemma computeResults_some (pf : Qc -> Qc -> Qc) (inputs : Inputs)
    (res : Results) :
  computeResults pf inputs = Some res ->
  exists n, turns (months_of inputs) = Some n
            /\ computeResults pf inputs
               = Some {| fvLump := fvLump_of pf inputs;
                         fvSip := fvSip_of pf inputs;
                         fvTotal := fvTotal_of pf inputs;
                         gap := sub (fvTotal_of pf inputs)
                                    (effectiveTarget_of pf inputs);
                         monthlyRequired :=
                           Some (monthlyRequired_of pf inputs);
                         projection := projection_of inputs n;
                         health :=
                           getHealthScore (fvTotal_of pf inputs)
                                          (effectiveTarget_of pf inputs);
                         coverage := coverage_of pf inputs;
                         effectiveTarget := effectiveTarget_of pf inputs |}.
Proof.
  intro H.
  assert (Hy : Number (years inputs) <> PInf).
  { intro E. apply (computeResults_none pf) in E. congruence. }
  destruct (turns_months inputs Hy) as (n & _ & _ & Ht).
  exists n. split; [exact Ht|]. now apply computeResults_fields.
Qed.

Lemma computeResults_returned (pf : Qc -> Qc -> Qc) (inputs : Inputs)
    (res : Results) :
  computeResults pf inputs = Some res ->
  res = {| fvLump := fvLump_of pf inputs;
           fvSip := fvSip_of pf inputs;
           fvTotal := fvTotal_of pf inputs;
           gap := sub (fvTotal_of pf inputs) (effectiveTarget_of pf inputs);
           monthlyRequired := Some (monthlyRequired_of pf inputs);
           projection := projection res;
           health := getHealthScore (fvTotal_of pf inputs)
                                    (effectiveTarget_of pf inputs);
           coverage := coverage_of pf inputs;
           effectiveTarget := effectiveTarget_of pf inputs |}.
Proof.
  intro H. destruct (computeResults_some pf inputs res H) as (n & _ & E).
  rewrite E in H. injection H as <-. reflexivity.
Qed.

Lemma within_horizon_finite (inputs : Inputs) :
  within_horizon inputs -> Number (years inputs) <> PInf.
Proof.
  unfold within_horizon. intros H E.
  destruct (months_of_shape inputs) as [[_ Em]|(z & _ & Em)].
  - rewrite Em in H. discriminate H.
  - assert (Hm : months_of inputs = PInf).
    { unfold months_of, norm. rewrite E. reflexivity. }
    rewrite Hm in H. discriminate H.
Qed.

Lemma within_horizon_returns (pf : Qc -> Qc -> Qc) (inputs : Inputs) :
  within_horizon inputs -> exists res, computeResults pf inputs = Some res.
Proof.
  intro H. apply within_horizon_finite in H.
  destruct (computeResults pf inputs) as [res|] eqn:E; [eauto|].
  apply computeResults_none in E. contradiction.
Qed.


(* ----------------------------------------------------------------- *)
(** *** C1: the required-contribution solver *)


(* ----------------------------------------------------------------- *)
(** *** C2: sign of the required contribution *)

(** At a return of -3600% a year over six months the required contribution
    is negative: [2100 * (-3) / ((-2) ^ 6 - 1) = -100]. *)
Lemma required_contribution_negative : negative_requirement steep_loss.
Proof.
  intro pf. eexists. eexists.
  split; [vm_compute; reflexivity|].
  split; [reflexivity|].
  vm_compute; reflexivity.
Qed.

Lemma growth_minus_1_sign (A : Qc) (n : nat) :
  (1 <= n)%nat -> (Q2Qc (inject_Z (-2400)) < A)%Qc -> A <> 0%Qc ->
  ((0 < monthly_rate A)%Qc /\ (0 < growth A n - 1)%Qc)
  \/ ((monthly_rate A < 0)%Qc /\ (growth A n - 1 < 0)%Qc).
Proof.
  intros Hn HA HA0.
  assert (Hrm : (Q2Qc (inject_Z (-2)) < monthly_rate A)%Qc).
  { unfold monthly_rate, c100, c12. to_Q. unfold inject_Z in *.
    change (/ (100 # 1))%Q with (1 # 100)%Q.
    change (/ (12 # 1))%Q with (1 # 12)%Q. lra. }
  assert (Hne : monthly_rate A <> 0%Qc) by (now rewrite monthly_rate_0).
  unfold growth.
  destruct (Qc_dec 0 (monthly_rate A)) as [[Hpos|Hneg]|E];
    [left | right | congruence].
  - split; [exact Hpos|].
    assert (G : (1 < (1 + monthly_rate A) ^ n)%Qc).
    { apply Qcpower_gt_1; [|exact Hn]. to_Q. lra. }
    to_Q. lra.
  - split; [exact Hneg|].
    assert (G : ((1 + monthly_rate A) ^ n < 1)%Qc).
    { apply Qcpower_lt_1; [| |exact Hn]; to_Q; unfold inject_Z in *; lra. }
    to_Q. lra.
Qed.

Lemma monthlyRequired_of_nonneg (pf : Qc -> Qc -> Qc) (inputs : Inputs) :
  finite_inputs inputs ->
  gt (norm (annualReturn inputs)) (ofZ (-2400)) = true ->
  exists q, monthlyRequired_of pf inputs = Fin q /\ (0 <= q)%Qc.
Proof.
  intros Hfin Hrate.
  destruct (finite_fields pf inputs Hfin)
    as (n & E & S & M & A & Hn & Ht & Hm & HE & HS & HM & HA & HL & _).
  rewrite HA in Hrate. apply Qcltb_lt in Hrate.
  destruct (rates_fin inputs A HA) as (_ & Hrm & Hseq).
  unfold monthlyRequired_of. rewrite HE, HL, Hseq, Hrm, Hm.
  rewrite (growth_of_fin pf inputs A n HA Hm Hn).
  unfold sub, neg, one, zero, ofZ. cbn [add mul le].
  destruct (Qcleb _ _) eqn:Eneed.
  { exists 0%Qc. split; [reflexivity | apply Qcle_refl]. }
  apply Qcleb_gt in Eneed.
  change (Q2Qc (inject_Z 0)) with 0%Qc in Eneed.
  destruct (Qceqb A 0) eqn:EA.
  - rewrite div_Fin by (apply ofZ_neq_0; lia).
    eexists. split; [reflexivity|].
    apply Qclt_le_weak, Qcdiv_pos_pos; [exact Eneed|].
    unfold Qclt. rewrite this_inject_Z.
    change (this 0%Qc) with (inject_Z 0). rewrite <- Zlt_Qlt. lia.
  - apply Qceqb_neq in EA.
    destruct (growth_minus_1_sign A n Hn Hrate EA) as [[H1 H2]|[H1 H2]];
      (rewrite div_Fin
        by (intro H; apply (Qclt_not_eq _ _ H2);
            first [exact H | symmetry; exact H]));
      eexists; (split; [reflexivity|]); apply Qclt_le_weak.
    + apply Qcdiv_pos_pos; [|exact H2].
      generalize dependent (E + - lump S A n)%Qc. intros y Hy. to_Q. nra.
    + apply Qcdiv_neg_neg; [|exact H2].
      generalize dependent (E + - lump S A n)%Qc. intros y Hy. to_Q. nra.
Qed.

(** C2, amended.  For every finite normalized input whose annual return is
    not negative, [computeResults] returns (within [horizon_limit]) and the
    required monthly contribution, which is the one computed from the
    input fields, is never negative. *)
Theorem required_contribution_nonneg
    (pow_frac : Qc -> Qc -> Qc) (inputs : Inputs) :
  finite_inputs inputs ->
  ge (norm (annualReturn inputs)) zero = true ->
  (within_horizon inputs ->
   exists res, computeResults pow_frac inputs = Some res)
  /\ forall res,
       computeResults pow_frac inputs = Some res ->
       exists v,
         monthlyRequired res = Some v
         /\ v = monthlyRequired_of pow_frac inputs
         /\ lt v zero = false.
Proof.
  intros Hfin Hrate.
  split; [apply within_horizon_returns|].
  intros res H. rewrite (computeResults_returned pow_frac inputs res H).
  cbn [monthlyRequired]. eexists. split; [reflexivity|].
  split; [reflexivity|].
  assert (Hgt : gt (norm (annualReturn inputs)) (ofZ (-2400)) = true).
  { destruct Hfin as (_ & _ & _ & _ & _ & HA).
    apply finite_inv in HA. destruct HA as [A HA]. rewrite HA in Hrate |- *.
    apply Qcleb_le in Hrate. apply Qcltb_lt.
    change (this (Q2Qc (inject_Z 0))) with (this 0%Qc) in Hrate.
    revert Hrate. to_Q. unfold inject_Z. intros. lra. }
  destruct (monthlyRequired_of_nonneg pow_frac inputs Hfin Hgt)
    as (q & -> & Hpos).
  apply Qcltb_ge. exact Hpos.
Qed.

Lemma required_contribution_nonneg_witness :
  (within_horizon spec_scenario ->
   exists res, computeResults pow_unused spec_scenario = Some res)
  /\ forall res,
       computeResults pow_unused spec_scenario = Some res ->
       exists v,
         monthlyRequired res = Some v
         /\ v = monthlyRequired_of pow_unused spec_scenario
         /\ lt v zero = false.
Proof.
  apply (required_contribution_nonneg pow_unused spec_scenario).
  - repeat split.
  - reflexivity.
Defined.

(* ----------------------------------------------------------------- *)
(** *** C3: the zero-return branch *)



(* ----------------------------------------------------------------- *)
(** *** C4: the health tiers *)



(** A target that is not positive gives the sentinel, whatever the numbers
    are. *)
Lemma getHealthScore_no_target (fvTotal effectiveTarget : num) :
  le effectiveTarget zero = true ->
  getHealthScore fvTotal effectiveTarget = SetAGoalFirst.
Proof. intro H. unfold getHealthScore. now rewrite H. Qed.


(* ----------------------------------------------------------------- *)
(** *** C5: coverage against contribution and savings *)

(** At -3600% a year, a larger contribution over six months, and larger
    savings over three months, both lower the coverage. *)
Lemma coverage_not_monotone :
  lt (norm (monthlyContribution steep_loss)) (norm "100") = true
  /\ coverage_drops steep_loss
                    (with_monthlyContribution steep_loss "100")
  /\ lt (norm (currentSavings steep_loss_quarter)) (norm "100")
     = true
  /\ coverage_drops steep_loss_quarter
                    (with_currentSavings steep_loss_quarter "100").
Proof.
  split; [reflexivity|]. split; [|split; [reflexivity|]].
  - intro pf. eexists. eexists.
    split; [vm_compute; reflexivity|].
    split; [vm_compute; reflexivity|].
    vm_compute; reflexivity.
  - intro pf. eexists. eexists.
    split; [vm_compute; reflexivity|].
    split; [vm_compute; reflexivity|].
    vm_compute; reflexivity.
Qed.

Lemma cover_mono (E t1 t2 : Qc) :
  (t1 <= t2)%Qc -> (cover E t1 <= cover E t2)%Qc.
Proof.
  intro H. unfold cover. destruct (Qcltb 0 E) eqn:HE; [|apply Qcle_refl].
  apply Qcltb_lt in HE. to_Q.
  assert (Hi := Qinv_lt_0_compat E HE). nra.
Qed.

Lemma monthly_rate_bound (A : Qc) (k : Z) :
  (Q2Qc (inject_Z (1200 * k)) <= A)%Qc ->
  (Q2Qc (inject_Z k) <= monthly_rate A)%Qc.
Proof.
  intro H. unfold monthly_rate, c100, c12. to_Q.
  rewrite inject_Z_mult in H. unfold inject_Z at 1 in H.
  change (/ inject_Z 100)%Q with (1 # 100)%Q.
  change (/ inject_Z 12)%Q with (1 # 12)%Q.
  generalize dependent (inject_Z k). intros y H. lra.
Qed.

Lemma sip_factor_nonneg (A : Qc) (n : nat) :
  (1 <= n)%nat -> (Q2Qc (inject_Z (-2400)) <= A)%Qc -> A <> 0%Qc ->
  (0 <= (growth A n - 1) / monthly_rate A)%Qc.
Proof.
  intros Hn HA HA0.
  assert (Hrm := monthly_rate_bound A (-2) HA).
  assert (Hne : monthly_rate A <> 0%Qc) by (now rewrite monthly_rate_0).
  unfold growth.
  destruct (Qc_dec 0 (monthly_rate A)) as [[Hpos|Hneg]|E]; [| |congruence].
  - apply Qcdiv_nonneg_pos; [|exact Hpos].
    assert (G : (1 < (1 + monthly_rate A) ^ n)%Qc).
    { apply Qcpower_gt_1; [|exact Hn]. to_Q. lra. }
    to_Q. lra.
  - apply Qcdiv_nonpos_neg; [|exact Hneg].
    destruct (Qcpower_abs_le_1 (1 + monthly_rate A) n) as [_ G];
      [to_Q; unfold inject_Z in *; lra | to_Q; lra |].
    to_Q. lra.
Qed.

Lemma sip_mono (A a b : Qc) (n : nat) :
  (1 <= n)%nat -> (Q2Qc (inject_Z (-2400)) <= A)%Qc ->
  (a <= b)%Qc -> (sip a A n <= sip b A n)%Qc.
Proof.
  intros Hn HA Hab. unfold sip. destruct (Qceqb A 0) eqn:EA.
  - assert (H : (0 <= Q2Qc (inject_Z (Z.of_nat n)))%Qc).
    { unfold Qcle. rewrite this_inject_Z.
      change (this 0%Qc) with (inject_Z 0). rewrite <- Zle_Qle. lia. }
    generalize dependent (Q2Qc (inject_Z (Z.of_nat n))). intros y Hy.
    to_Q. nra.
  - apply Qceqb_neq in EA.
    assert (H := sip_factor_nonneg A n Hn HA EA).
    generalize dependent ((growth A n - 1) / monthly_rate A)%Qc. intros y Hy.
    to_Q. nra.
Qed.

Lemma lump_mono (A a b : Qc) (n : nat) :
  (Q2Qc (inject_Z (-1200)) <= A)%Qc ->
  (a <= b)%Qc -> (lump a A n <= lump b A n)%Qc.
Proof.
  intros HA Hab. unfold lump. destruct (Qceqb A 0); [exact Hab|].
  assert (Hrm := monthly_rate_bound A (-1) HA).
  assert (G : (0 <= growth A n)%Qc).
  { unfold growth. apply Qcpower_pos. to_Q. unfold inject_Z in *. lra. }
  generalize dependent (growth A n). intros y Hy. to_Q. nra.
Qed.

Lemma finite_with_monthlyContribution (base : Inputs) (v : string) (q : Qc) :
  Number v = Fin q ->
  finite_inputs base -> finite_inputs (with_monthlyContribution base v).
Proof.
  intros Hv (HT & HY & HI & HS & HM & HA). repeat split; try assumption.
  cbn [monthlyContribution with_monthlyContribution].
  now rewrite (norm_Fin v q Hv).
Qed.

Lemma finite_with_currentSavings (base : Inputs) (v : string) (q : Qc) :
  Number v = Fin q ->
  finite_inputs base -> finite_inputs (with_currentSavings base v).
Proof.
  intros Hv (HT & HY & HI & HS & HM & HA). repeat split; try assumption.
  cbn [currentSavings with_currentSavings].
  now rewrite (norm_Fin v q Hv).
Qed.

Lemma coverage_le_intro (pf : Qc -> Qc -> Qc) (i1 i2 : Inputs) :
  finite_inputs i1 -> finite_inputs i2 ->
  months_of i1 = months_of i2 ->
  effectiveTarget_of pf i1 = effectiveTarget_of pf i2 ->
  norm (annualReturn i1) = norm (annualReturn i2) ->
  (forall (n : nat) (A S1 M1 S2 M2 : Qc),
      (1 <= n)%nat ->
      norm (annualReturn i1) = Fin A ->
      norm (currentSavings i1) = Fin S1 ->
      norm (monthlyContribution i1) = Fin M1 ->
      norm (currentSavings i2) = Fin S2 ->
      norm (monthlyContribution i2) = Fin M2 ->
      (lump S1 A n + sip M1 A n <= lump S2 A n + sip M2 A n)%Qc) ->
  coverage_le pf i1 i2.
Proof.
  intros Hf1 Hf2 Hmonths Htarget Hreturn Htotal.
  destruct (coverage_closed pf i1 Hf1)
    as (n1 & E1 & S1 & M1 & A1 & r1
        & Hn1 & Ht1 & HE1 & HS1 & HM1 & HA1 & Hc1 & _ & Hv1).
  destruct (coverage_closed pf i2 Hf2)
    as (n2 & E2 & S2 & M2 & A2 & r2
        & _ & Ht2 & HE2 & HS2 & HM2 & HA2 & Hc2 & _ & Hv2).
  rewrite <- Hmonths in Ht2. rewrite <- Htarget in HE2.
  rewrite <- Hreturn in HA2.
  assert (n2 = n1) by congruence. assert (E2 = E1) by congruence.
  assert (A2 = A1) by congruence. subst n2 E2 A2.
  exists r1, r2. do 2 eexists.
  repeat (split; [eassumption|]).
  apply cover_mono. now apply Htotal.
Qed.

Lemma coverage_not_lower_intro (pf : Qc -> Qc -> Qc) (i1 i2 : Inputs) :
  coverage_le pf i1 i2 -> coverage_not_lower pf i1 i2.
Proof.
  intros (r1 & r2 & c1 & c2 & H1 & H2 & Hc1 & Hc2 & Hle).
  split; [intros _; eauto|].
  intros s1 s2 G1 G2.
  assert (E1 : s1 = r1) by congruence. assert (E2 : s2 = r2) by congruence.
  subst s1 s2.
  assert (C1 : coverage r1 = coverage_of pf i1)
    by (rewrite (computeResults_returned pf i1 r1 H1); reflexivity).
  assert (C2 : coverage r2 = coverage_of pf i2)
    by (rewrite (computeResults_returned pf i2 r2 H2); reflexivity).
  split; [exact C1|]. split; [exact C2|].
  rewrite Hc1, Hc2. apply Qcltb_ge. exact Hle.
Qed.

(** C5, amended.  For finite normalized inputs that differ only in the
    monthly contribution, the coverage computed for the larger contribution
    is never below the coverage computed for the smaller one, provided the
    annual return is at least -2400%; for inputs that differ only in the
    current savings the same holds provided the annual return is at least
    -1200%.  Each coverage is the one computed from the input fields, and
    both runs return within [horizon_limit]. *)
Theorem coverage_monotone
    (pow_frac : Qc -> Qc -> Qc) (base : Inputs) (v1 v2 : string)
    (a b : Qc) :
  finite_inputs base ->
  Number v1 = Fin a -> Number v2 = Fin b -> (a <= b)%Qc ->
  (ge (norm (annualReturn base)) (ofZ (-2400)) = true ->
   coverage_not_lower pow_frac (with_monthlyContribution base v1)
                               (with_monthlyContribution base v2))
  /\ (ge (norm (annualReturn base)) (ofZ (-1200)) = true ->
      coverage_not_lower pow_frac (with_currentSavings base v1)
                                  (with_currentSavings base v2)).
Proof.
  intros Hfin Hv1 Hv2 Hab.
  assert (N1 := norm_Fin v1 a Hv1). assert (N2 := norm_Fin v2 b Hv2).
  split; intro Hrate; apply coverage_not_lower_intro.
  - apply coverage_le_intro; try reflexivity;
      try (eapply finite_with_monthlyContribution; eassumption).
    cbn [annualReturn currentSavings monthlyContribution
         with_monthlyContribution].
    intros n A S1 M1 S2 M2 Hn HA HS1 HM1 HS2 HM2.
    assert (S2 = S1) by congruence. assert (M1 = a) by congruence.
    assert (M2 = b) by congruence. subst S2 M1 M2.
    rewrite HA in Hrate. apply Qcleb_le in Hrate.
    assert (H := sip_mono A a b n Hn Hrate Hab).
    to_Q. lra.
  - apply coverage_le_intro; try reflexivity;
      try (eapply finite_with_currentSavings; eassumption).
    cbn [annualReturn currentSavings monthlyContribution
         with_currentSavings].
    intros n A S1 M1 S2 M2 Hn HA HS1 HM1 HS2 HM2.
    assert (M2 = M1) by congruence. assert (S1 = a) by congruence.
    assert (S2 = b) by congruence. subst M2 S1 S2.
    rewrite HA in Hrate. apply Qcleb_le in Hrate.
    assert (H := lump_mono A a b n Hrate Hab).
    to_Q. lra.
Qed.

Lemma coverage_monotone_witness :
  coverage_not_lower pow_unused
    (with_monthlyContribution spec_scenario "10000")
    (with_monthlyContribution spec_scenario "12000")
  /\ coverage_not_lower pow_unused
       (with_currentSavings spec_scenario "10000")
       (with_currentSavings spec_scenario "12000").
Proof.
  destruct (coverage_monotone pow_unused spec_scenario "10000" "12000"
              (Q2Qc (inject_Z 10000)) (Q2Qc (inject_Z 12000)))
    as [Hsip Hsavings].
  - repeat split.
  - reflexivity.
  - reflexivity.
  - vm_compute. discriminate.
  - split; [apply Hsip | apply Hsavings]; reflexivity.
Defined.

(* ----------------------------------------------------------------- *)
(** *** C6: normalization *)

(** The text [Infinity] does not parse as a finite number, and the field
    does not resolve to [0]: it stays [+Infinity]. *)
Lemma infinity_not_resolved :
  ~ finite (Number text_Infinity)
  /\ norm text_Infinity = PInf
  /\ seq (norm text_Infinity) zero = false.
Proof. repeat split. intros []. Qed.

(** C6, amended.  Normalization is total and never yields [NaN]: a field
    whose text is no number at all ([NaN]) or is empty or zero resolves to
    [0], a finite number is kept, and a text that parses to [+Infinity] or
    [-Infinity] is kept as that infinity; the priority, whose fallback is
    [1], is moreover clamped to a finite number in [[1,5]]. *)
Theorem normalization_total (t : string) (g : Goal) :
  norm t <> NaN
  /\ norm EmptyString = zero
  /\ (Number t = NaN -> norm t = zero)
  /\ (Number t = zero -> norm t = zero)
  /\ (forall q, Number t = Fin q -> norm t = Fin q)
  /\ (Number t = PInf -> norm t = PInf)
  /\ (Number t = NInf -> norm t = NInf)
  /\ (exists p : Qc,
        norm_priority g = Fin p /\ (1 <= p <= Q2Qc (inject_Z 5))%Qc)
  /\ (Number (priority (inputs g)) = NaN -> norm_priority g = one).
Proof.
  split; [apply norm_not_NaN|]. split; [reflexivity|].
  repeat split; try (unfold norm; intros ->; reflexivity).
  - apply norm_Fin.
  - apply norm_priority_range.
  - unfold norm_priority. intros ->. reflexivity.
Qed.

(* ----------------------------------------------------------------- *)
(** *** C7: the what-if scenarios *)

(** The contribution and target scenarios run on the normalized field plus
    2000, and minus 200000 floored at [0]; the horizon scenario runs on the
    normalized horizon plus 2 unless the horizon field reads [-2]. *)
Lemma scenario_inputs_spec (base : Inputs) :
  plus2kSip_inputs base = plus2kSip_spec base
  /\ minus2LTarget_inputs base = minus2LTarget_spec base
  /\ (Number (years base) <> ofZ (-2) ->
      plus2Years_inputs base = plus2Years_spec base).
Proof.
  split; [reflexivity|]. split; [reflexivity|].
  intro Hy. unfold plus2Years_inputs, plus2Years_spec. do 2 apply f_equal.
  destruct (norm_cases (years base)) as [[E H]|[[E H]|(H1 & H2 & H)]];
    rewrite H.
  - rewrite E. unfold or_else, add, zero, ofZ. cbn [truthy].
    apply f_equal. symmetry. apply Qcplus_0_l.
  - rewrite E. reflexivity.
  - destruct (Number (years base)) as [| | |q];
      try reflexivity; try congruence.
    unfold or_else, add, ofZ. cbn [truthy].
    replace (Qceqb (q + Q2Qc (inject_Z 2)) 0) with false; [reflexivity|].
    symmetry. apply Qceqb_neq. intro Hq. apply Hy. unfold ofZ.
    apply f_equal. apply Qc_is_canon.
    apply Qc_eq_Q in Hq. to_Q. unfold inject_Z in *. lra.
Qed.

Lemma norm_toString (v : num) :
  v <> NaN -> reads_back v -> norm (toString v) = v.
Proof.
  intros Hv Hback. unfold norm. rewrite Hback. unfold or_else.
  destruct v as [| | |q]; try reflexivity; [congruence|].
  cbn [truthy]. destruct (Qceqb q 0) eqn:E; [|reflexivity].
  apply Qceqb_eq in E. now subst q.
Qed.

Lemma add_not_NaN (a : num) (z : Z) : a <> NaN -> add a (ofZ z) <> NaN.
Proof. destruct a; simpl; congruence. Qed.

(** Read back, the fields that the scenarios write are the normalized
    contribution plus 2000, the normalized target minus 200000 floored at
    [0], and (unless the horizon field reads [-2]) the normalized horizon
    plus 2. *)
Lemma scenario_fields_read_back (base : Inputs) :
  let sip := add (norm (monthlyContribution base)) (ofZ 2000) in
  let target :=
    Math_max zero (sub (norm (targetAmount base)) (ofZ 200000)) in
  let horizon := add (norm (years base)) (ofZ 2) in
  (reads_back sip ->
   norm (monthlyContribution (plus2kSip_inputs base)) = sip)
  /\ (reads_back target ->
      norm (targetAmount (minus2LTarget_inputs base)) = target)
  /\ (Number (years base) <> ofZ (-2) -> reads_back horizon ->
      norm (years (plus2Years_inputs base)) = horizon).
Proof.
  cbv zeta. split; [|split].
  - intro Hback. apply norm_toString; [|exact Hback].
    apply add_not_NaN, norm_not_NaN.
  - intro Hback. apply norm_toString; [|exact Hback].
    assert (H := norm_not_NaN (targetAmount base)).
    destruct (norm (targetAmount base)) as [| | |q]; try congruence;
      [discriminate | discriminate |].
    unfold Math_max, sub, neg, ofZ, zero. cbn [add].
    match goal with |- context [if ?c then _ else _] => destruct c end;
      discriminate.
  - intros Hy Hback.
    destruct (scenario_inputs_spec base) as (_ & _ & H). rewrite (H Hy).
    apply norm_toString; [|exact Hback].
    apply add_not_NaN, norm_not_NaN.
Qed.

(** The scenarios are three runs of [computeResults] on copies of the
    inputs; the stored Results of the goal play no part. *)
Lemma scenarioResults_spec (pow_frac : Qc -> Qc -> Qc) (g : Goal) :
  Number (years (inputs g)) <> ofZ (-2) ->
  scenarioResults pow_frac (Some g) =
  match computeResults pow_frac (plus2Years_spec (inputs g)),
        computeResults pow_frac (plus2kSip_spec (inputs g)),
        computeResults pow_frac (minus2LTarget_spec (inputs g)) with
  | Some s1, Some s2, Some s3 =>
      Some (Some {| scenarioPlus2Years := s1; scenarioPlus2kSip := s2;
                    scenarioMinus2LTarget := s3 |})
  | _, _, _ => None
  end.
Proof.
  intro Hy. unfold scenarioResults.
  destruct (scenario_inputs_spec (inputs g)) as (-> & -> & H).
  rewrite (H Hy).
  destruct (computeResults pow_frac (plus2Years_spec (inputs g)));
    [|reflexivity].
  destruct (computeResults pow_frac (plus2kSip_spec (inputs g)));
    reflexivity.
Qed.

Lemma scenarioResults_frame
    (pow_frac : Qc -> Qc -> Qc) (g : Goal) (stored : option Results) :
  scenarioResults pow_frac (Some g) =
  scenarioResults pow_frac
    (Some {| id := id g; inputs := inputs g; results := stored |}).
Proof. reflexivity. Qed.

(** C7, at the failing input.  For a goal whose horizon field reads [-2],
    [Number(base.years) + 2] is [0], which [||] replaces by [2]: the first
    scenario runs on a horizon of [2] years although the normalized horizon
    plus 2 is [0], and its result differs from the run on [years + 2]
    (contributions worth 24000 over 24 months against 1000 over 1). *)
Lemma scenario_plus2Years_at_minus_two :
  plus2Years_inputs (inputs backdated) =
    with_years (inputs backdated) "2"
  /\ seq (Number (years (plus2Years_spec (inputs backdated)))) zero = true
  /\ plus2Years_off backdated.
Proof.
  split; [reflexivity|]. split; [reflexivity|].
  intro pf. eexists. eexists.
  split; [vm_compute; reflexivity|].
  split; [vm_compute; reflexivity|].
  vm_compute; reflexivity.
Qed.

(* ----------------------------------------------------------------- *)
(** *** C8: average coverage and badge *)

Lemma visit_coverage (acc : Sums) (g : Goal) :
  coverageSum (visit acc g) =
    (if qualifies g then add (coverageSum acc) (coverage_or_zero g)
     else coverageSum acc)
  /\ coverageCount (visit acc g) =
       (if qualifies g then S (coverageCount acc) else coverageCount acc).
Proof.
  unfold visit, qualifies, coverage_or_zero. cbn [coverageSum coverageCount].
  destruct (results g) as [res|]; [|split; reflexivity].
  destruct (gt (coverage res) zero); split; reflexivity.
Qed.

Lemma sums_coverage (goals : list Goal) :
  forall acc : Sums,
    coverageSum (fold_left visit goals acc) =
      fold_left add (qualifying_coverages goals) (coverageSum acc)
    /\ coverageCount (fold_left visit goals acc) =
         (coverageCount acc + List.length (qualifying_coverages goals))%nat.
Proof.
  induction goals as [|g goals IH]; intro acc.
  - simpl. split; [reflexivity | lia].
  - cbn [fold_left]. destruct (IH (visit acc g)) as [IHs IHc].
    rewrite IHs, IHc.
    destruct (visit_coverage acc g) as [Hs Hc]. rewrite Hs, Hc.
    unfold qualifying_coverages. cbn [filter].
    destruct (qualifies g); cbn [map fold_left List.length]; split;
      try reflexivity; lia.
Qed.

Lemma qualifying_positive (goals : list Goal) :
  Forall (fun c => gt c zero = true) (qualifying_coverages goals).
Proof.
  unfold qualifying_coverages.
  induction goals as [|g goals IH]; [constructor|].
  cbn [filter]. destruct (qualifies g) eqn:Hq; [|exact IH].
  cbn [map]. constructor; [|exact IH].
  unfold qualifies, coverage_or_zero in *.
  destruct (results g); [exact Hq | discriminate].
Qed.

Lemma sum_positive (l : list num) :
  Forall (fun c => gt c zero = true) l -> l <> [] ->
  forall a, a = zero \/ gt a zero = true ->
            gt (fold_left add l a) zero = true.
Proof.
  induction 1 as [|c l Hc Hl IH]; intros Hne a Ha; [congruence|].
  cbn [fold_left].
  assert (Hac := add_positive a c Ha Hc).
  destruct l as [|c' l']; [exact Hac|].
  apply IH; [discriminate | now right].
Qed.

Lemma mean_positive (l : list num) :
  Forall (fun c => gt c zero = true) l -> l <> [] ->
  gt (mean l) zero = true.
Proof.
  intros Hl Hne. unfold mean, sum_list.
  assert (Hs := sum_positive l Hl Hne zero (or_introl eq_refl)).
  assert (Hn : (0 < Q2Qc (inject_Z (Z.of_nat (List.length l))))%Qc).
  { unfold Qclt. rewrite this_inject_Z. change (this 0%Qc) with (inject_Z 0).
    rewrite <- Zlt_Qlt. destruct l; [congruence | simpl; lia]. }
  apply gt_zero_inv in Hs. destruct Hs as [->|(s & -> & Hs)].
  - unfold div, ofZ. rewrite (proj2 (Qcltb_ge _ 0) (Qclt_le_weak _ _ Hn)).
    reflexivity.
  - unfold ofZ.
    rewrite div_Fin
      by (intro E; rewrite E in Hn; now apply (Qclt_not_eq _ _ Hn)).
    apply Qcltb_lt. change (Q2Qc (inject_Z 0)) with 0%Qc.
    now apply Qcdiv_pos_pos.
Qed.

Lemma badge_of_positive (avg : num) :
  gt avg zero = true -> badge_table avg (badge_of avg).
Proof.
  intro Hpos. apply gt_zero_inv in Hpos.
  destruct Hpos as [->|(q & -> & Hq)].
  - repeat split; try discriminate; reflexivity.
  - unfold badge_table, badge_of, ge, gt, le, lt, dec, one, zero, ofZ.
    change (Q2Qc (inject_Z 0)) with 0%Qc. change (Q2Qc (inject_Z 1)) with 1%Qc.
    rewrite (proj2 (Qcltb_lt 0 q) Hq).
    destruct (Qcleb 1 q) eqn:E1; [apply Qcleb_le in E1 | apply Qcleb_gt in E1];
    destruct (Qcltb q (Q2Qc (6 # 5))) eqn:E2;
      [apply Qcltb_lt in E2 | apply Qcltb_ge in E2
      | apply Qcltb_lt in E2 | apply Qcltb_ge in E2];
    destruct (Qcleb (Q2Qc (6 # 5)) q) eqn:E3;
      try (apply Qcleb_le in E3); try (apply Qcleb_gt in E3);
    destruct (Qcleb (Q2Qc (7 # 10)) q) eqn:E4;
      try (apply Qcleb_le in E4); try (apply Qcleb_gt in E4);
    destruct (Qcltb q (Q2Qc (7 # 10))) eqn:E5;
      try (apply Qcltb_lt in E5); try (apply Qcltb_ge in E5);
    destruct (Qcltb q 1) eqn:E6;
      try (apply Qcltb_lt in E6); try (apply Qcltb_ge in E6);
    cbn [andb]; repeat split; intros; try reflexivity; try discriminate;
    exfalso; to_Q; lra.
Qed.

Lemma badge_of_started (avg : num) :
  gt avg zero = true -> badge_of avg <> GettingStarted.
Proof.
  intro H. unfold badge_of. rewrite H.
  repeat match goal with |- context [if ?b then _ else _] => destruct b end;
    discriminate.
Qed.

(** C8.  The average coverage is the mean of the coverages of exactly the
    goals that have Results with a positive coverage.  Without such a goal
    the average is [0] and the badge is "getting started"; otherwise the
    average is positive and the badge follows the tiers: below 0.7 "high
    risk of shortfall", from 0.7 below 1.0 "almost there", from 1.0 below
    1.2 "on track", from 1.2 on "overprepared". *)
Theorem average_coverage_badge (goals : list Goal) :
  match qualifying_coverages goals with
  | [] =>
      avgCoverage (sums goals) = zero
      /\ badge (totals goals) = GettingStarted
  | covs =>
      avgCoverage (sums goals) = mean covs
      /\ gt (mean covs) zero = true
      /\ badge (totals goals) <> GettingStarted
      /\ badge_table (mean covs) (badge (totals goals))
  end.
Proof.
  destruct (sums_coverage goals sums0) as [Hs Hc].
  fold (sums goals) in Hs, Hc. cbn [coverageSum coverageCount sums0] in Hs, Hc.
  assert (Hpos := qualifying_positive goals).
  unfold totals. cbn [badge]. unfold avgCoverage. rewrite Hs, Hc.
  destruct (qualifying_coverages goals) as [|c covs] eqn:E.
  - split; reflexivity.
  - assert (Hm := mean_positive (c :: covs) Hpos ltac:(discriminate)).
    change (0 <? 0 + List.length (c :: covs))%nat with true. cbv iota.
    fold (mean (c :: covs)).
    split; [reflexivity|]. split; [exact Hm|].
    split; [now apply badge_of_started | now apply badge_of_positive].
Qed.

(* ----------------------------------------------------------------- *)
(** *** C9: the priority-weighted allocation *)

Lemma totalPriority_sum (goals : list Goal) :
  totalPriority goals = sum_list (map norm_priority goals).
Proof.
  unfold totalPriority, sum_list. generalize zero.
  induction goals as [|g goals IH]; intro a; [reflexivity|].
  cbn [fold_left map]. apply IH.
Qed.

Lemma totalPriority_fin (goals : list Goal) :
  exists s, totalPriority goals = Fin s
            /\ (Q2Qc (inject_Z (Z.of_nat (List.length goals))) <= s)%Qc.
Proof.
  unfold totalPriority.
  assert (H : forall a : Qc,
             exists s,
               fold_left (fun sum g => add sum (norm_priority g)) goals (Fin a)
               = Fin s
               /\ (a + Q2Qc (inject_Z (Z.of_nat (List.length goals))) <= s)%Qc).
  { induction goals as [|g goals IH]; intro a.
    - exists a. split; [reflexivity|]. simpl List.length.
      change (Q2Qc (inject_Z (Z.of_nat 0))) with 0%Qc. rewrite Qcplus_0_r.
      apply Qcle_refl.
    - cbn [fold_left]. destruct (norm_priority_range g) as (p & -> & Hp1 & _).
      cbn [add]. destruct (IH (a + p)%Qc) as (s & -> & Hs).
      exists s. split; [reflexivity|].
      cbn [List.length]. rewrite ofZ_succ.
      generalize dependent (Q2Qc (inject_Z (Z.of_nat (List.length goals)))).
      intros y Hs. to_Q. lra. }
  destruct (H 0%Qc) as (s & Hs & Hle). exists s. split; [exact Hs|].
  now rewrite Qcplus_0_l in Hle.
Qed.

Lemma income_guard (monthlyIncome : string) :
  negb (truthy (norm monthlyIncome)) || le (norm monthlyIncome) zero
  = le (norm monthlyIncome) zero.
Proof.
  destruct (norm_cases monthlyIncome) as [[_ H]|[[_ H]|(H1 & H2 & H)]];
    rewrite H; try reflexivity.
  destruct (Number monthlyIncome) as [| | |q];
    try reflexivity; try congruence.
  cbn [truthy]. replace (Qceqb q 0) with false; [reflexivity|].
  symmetry. apply Qceqb_neq. congruence.
Qed.

Lemma norm_priority_spec (g : Goal) :
  norm_priority g = priority_spec (priority (inputs g)).
Proof.
  unfold norm_priority, priority_spec, norm, or_else.
  destruct (Number (priority (inputs g))) as [| | |q]; try reflexivity.
  cbn [truthy]. destruct (Qceqb q 0) eqn:E0; cbn [negb].
  - reflexivity.
  - unfold Math_min, Math_max, gt, one, ofZ. cbn [lt].
    destruct (Qcltb q (Q2Qc (inject_Z 5))) eqn:E5.
    + apply Qcltb_lt in E5.
      replace (Qcltb (Q2Qc (inject_Z 5)) q) with false
        by (symmetry; apply Qcltb_ge; now apply Qclt_le_weak).
      destruct (Qcltb q (Q2Qc (inject_Z 1))) eqn:E1.
      * apply Qcltb_lt in E1.
        replace (Qcltb (Q2Qc (inject_Z 1)) q) with false; [reflexivity|].
        symmetry. apply Qcltb_ge. now apply Qclt_le_weak.
      * apply Qcltb_ge in E1.
        destruct (Qcltb (Q2Qc (inject_Z 1)) q) eqn:E1'; [reflexivity|].
        apply Qcltb_ge in E1'. apply f_equal. now apply Qcle_antisym.
    + apply Qcltb_ge in E5.
      assert (H15 : (Q2Qc (inject_Z 1) < Q2Qc (inject_Z 5))%Qc)
        by reflexivity.
      replace (Qcltb (Q2Qc (inject_Z 1)) (Q2Qc (inject_Z 5))) with true
        by reflexivity.
      replace (Qcltb q (Q2Qc (inject_Z 1))) with false.
      2:{ symmetry. apply Qcltb_ge. apply Qclt_le_weak.
          now apply Qclt_le_trans with (y := Q2Qc (inject_Z 5)). }
      destruct (Qcltb (Q2Qc (inject_Z 5)) q) eqn:E5'; [reflexivity|].
      apply Qcltb_ge in E5'. apply f_equal. now apply Qcle_antisym.
Qed.

Lemma suggestion_allocation_spec (monthlyIncome : string)
    (goals : list Goal) (g : Goal) :
  suggestion_spec monthlyIncome goals g
  = allocation_spec monthlyIncome goals g.
Proof.
  unfold suggestion_spec, allocation_spec.
  rewrite norm_priority_spec.
  rewrite (map_ext norm_priority
             (fun h => priority_spec (priority (inputs h)))
             norm_priority_spec).
  reflexivity.
Qed.

(** C9.  The allocation is [null] exactly when the normalized monthly income
    is at most [0] (as it is for a text that is no number) or there is no
    goal.  Otherwise it lists, goal by goal,
    [(priority / sum of priorities) * (0.4 * income)] rounded to the nearest
    integer, where the priority of a goal is read off its priority text:
    the normalized text, clamped into [[1,5]]. *)
Theorem priority_weighted_allocation
    (monthlyIncome : string) (goals : list Goal) :
  (recommendedAllocation monthlyIncome goals = None
   <-> le (norm monthlyIncome) zero = true \/ goals = [])
  /\ (Number monthlyIncome = NaN ->
      recommendedAllocation monthlyIncome goals = None)
  /\ (forall l,
        recommendedAllocation monthlyIncome goals = Some l ->
        l = map (allocation_spec monthlyIncome goals) goals)
  /\ Forall (fun g =>
               norm_priority g = priority_spec (priority (inputs g))
               /\ exists p : Qc,
                    priority_spec (priority (inputs g)) = Fin p
                    /\ (1 <= p <= Q2Qc (inject_Z 5))%Qc) goals.
Proof.
  assert (Hdef :
    recommendedAllocation monthlyIncome goals =
    if le (norm monthlyIncome) zero then None
    else match goals with
         | [] => None
         | _ => Some (map (allocation_spec monthlyIncome goals) goals)
         end).
  { unfold recommendedAllocation. fold (norm monthlyIncome).
    rewrite income_guard.
    destruct (le (norm monthlyIncome) zero); [reflexivity|].
    destruct goals as [|g goals']; [reflexivity|].
    destruct (totalPriority_fin (g :: goals')) as (s & Hs & Hle).
    rewrite Hs.
    replace (seq (Fin s) zero) with false.
    - f_equal. apply map_ext. intro g'.
      rewrite <- suggestion_allocation_spec. unfold suggestion_spec.
      rewrite <- totalPriority_sum, Hs.
      now rewrite (mul_comm (dec 2 5)).
    - symmetry. apply Qceqb_neq. intros ->.
      cbn [List.length] in Hle. rewrite ofZ_succ in Hle.
      assert (H0 : (0 <= Q2Qc (inject_Z (Z.of_nat (List.length goals'))))%Qc).
      { unfold Qcle. rewrite this_inject_Z.
        change (this 0%Qc) with (inject_Z 0).
        rewrite <- Zle_Qle. lia. }
      set (y := Q2Qc (inject_Z (Z.of_nat (List.length goals')))) in *.
      clearbody y. change (Q2Qc (inject_Z 0)) with 0%Qc in Hle.
      to_Q. lra. }
  split; [|split; [|split]].
  - rewrite Hdef. destruct (le (norm monthlyIncome) zero).
    + split; auto.
    + destruct goals; split; auto; try discriminate.
      intros [H|H]; discriminate.
  - intro H. rewrite Hdef. unfold norm. rewrite H. reflexivity.
  - intros l. rewrite Hdef. destruct (le (norm monthlyIncome) zero);
      [discriminate|]. destruct goals; [discriminate|]. now intros [= <-].
  - apply Forall_forall. intros g _.
    split; [apply norm_priority_spec|].
    rewrite <- norm_priority_spec. apply norm_priority_range.
Qed.

(* ----------------------------------------------------------------- *)
(** *** C10: the last trajectory point *)

Lemma trajectory_last (r rm mc : num) (N : Z) (k : nat) :
  forall (m : Z) (v : num),
    (m + Z.of_nat k = N)%Z ->
    exists pts,
      trajectory r rm mc (ofZ N) (S k) m v =
      pts ++ [{| month := N; yearLabel := year_label N;
                 value := value_after r rm mc (S k) v |}].
Proof.
  induction k as [|k IH]; intros m v Hm.
  - assert (m = N) by lia. subst m. exists [].
    cbn [trajectory]. unfold sampled. rewrite seq_ofZ_refl.
    now rewrite !orb_true_r.
  - destruct (IH (m + 1)%Z (grow r rm mc v)) as [pts Hpts]; [lia|].
    change (trajectory r rm mc (ofZ N) (S (S k)) m v)
      with (let rest := trajectory r rm mc (ofZ N) (S k) (m + 1)
                                   (grow r rm mc v) in
            if sampled m (ofZ N)
            then {| month := m; yearLabel := year_label m;
                    value := grow r rm mc v |} :: rest
            else rest).
    cbv zeta. rewrite Hpts.
    replace (value_after r rm mc (S (S k)) v)
      with (value_after r rm mc (S k) (grow r rm mc v))
      by (unfold value_after; now rewrite <- Nat.iter_succ_r).
    destruct (sampled m (ofZ N)); eauto.
    eexists (_ :: pts). reflexivity.
Qed.


Lemma closed_form_step (S M A : Qc) (n : nat) :
  (lump S A (Datatypes.S n) + sip M A (Datatypes.S n))%Qc =
  if Qceqb A 0 then (lump S A n + sip M A n + M)%Qc
  else ((lump S A n + sip M A n) * (1 + monthly_rate A) + M)%Qc.
Proof.
  unfold lump, sip. destruct (Qceqb A 0) eqn:EA.
  - rewrite ofZ_succ. ring.
  - apply Qceqb_neq in EA.
    assert (Hne : monthly_rate A <> 0%Qc) by (now rewrite monthly_rate_0).
    unfold growth. rewrite Qcpower_S.
    generalize dependent (monthly_rate A). intros rm Hne.
    generalize ((1 + rm) ^ n)%Qc. intro g. field. exact Hne.
Qed.

Lemma closed_form_0 (S M A : Qc) : (lump S A 0 + sip M A 0)%Qc = S.
Proof.
  unfold lump, sip. destruct (Qceqb A 0) eqn:EA.
  - change (Q2Qc (inject_Z (Z.of_nat 0))) with 0%Qc. ring.
  - apply Qceqb_neq in EA.
    assert (Hne : monthly_rate A <> 0%Qc) by (now rewrite monthly_rate_0).
    unfold growth. simpl Qcpower. field. exact Hne.
Qed.

Lemma value_after_closed (inputs : Inputs) (S M A : Qc) (n : nat) :
  norm (annualReturn inputs) = Fin A ->
  value_after (r_of inputs) (rm_of inputs) (Fin M) n (Fin S) =
  Fin (lump S A n + sip M A n)%Qc.
Proof.
  intro HA. destruct (rates_fin inputs A HA) as (_ & Hrm & Hseq).
  induction n as [|n IH].
  - simpl. now rewrite closed_form_0.
  - change (value_after (r_of inputs) (rm_of inputs) (Fin M)
                         (Datatypes.S n) (Fin S))
      with (grow (r_of inputs) (rm_of inputs) (Fin M)
                 (value_after (r_of inputs) (rm_of inputs) (Fin M) n (Fin S))).
    rewrite IH. unfold grow. rewrite Hseq, Hrm, closed_form_step.
    destruct (Qceqb A 0); reflexivity.
Qed.



(* ----------------------------------------------------------------- *)
(** *** The scenarios of section 8, evaluated *)

(** 60 months, 1% a month; target 1,914,422.3..., lump sum 90,834.8...,
    contributions 816,696.6..., coverage 0.474..., tier "very weak". *)
Example spec_scenario_values :
  option_map
    (fun res =>
       (floor_of (months_of spec_scenario),
        seq (rm_of spec_scenario) (dec 1 100),
        floor_of (effectiveTarget res), floor_of (fvLump res),
        floor_of (fvSip res), floor_of (fvTotal res), floor_of (gap res),
        floor_of (mul (coverage res) (ofZ 1000)), health res))
    (computeResults pow_unused spec_scenario)
  = Some (Some 60%Z, true, Some 1914422%Z, Some 90834%Z, Some 816696%Z,
          Some 907531%Z, Some (-1006891)%Z, Some 474%Z, VeryWeak).
Proof. vm_compute. reflexivity. Qed.

(** Zero return: 10,000 saved and 1,000 a month for a year. *)
Example zero_return_values :
  option_map
    (fun res =>
       (seq (fvLump res) (ofZ 10000), seq (fvSip res) (ofZ 12000),
        seq (fvTotal res) (ofZ 22000),
        map (fun p => (month p, yearLabel p, floor_of (value p)))
            (projection res)))
    (computeResults pow_unused zero_return_scenario)
  = Some (true, true, true,
          [(1%Z, "0.1y"%string, Some 11000%Z);
           (6%Z, "0.5y"%string, Some 16000%Z);
           (12%Z, "1.0y"%string, Some 22000%Z)]).
Proof. vm_compute. reflexivity. Qed.

(** Already funded: a target of 100,000 against 150,000 saved needs no
    contribution, whatever the current contribution is. *)
Example already_funded (contribution : string) :
  option_map monthlyRequired
    (computeResults pow_unused
       (with_monthlyContribution
          (goal_inputs "100000" "1" "150000" "0" "0" "0") contribution))
  = Some (Some zero).
Proof. reflexivity. Qed.

(** An empty portfolio: zero totals, the first badge, no allocation. *)
Example empty_portfolio :
  totals [] = {| totalCurrentSip := zero; totalRequiredSip := zero;
                 badge := GettingStarted |}
  /\ recommendedAllocation "50000" [] = None.
Proof. split; reflexivity. Qed.

(** A coverage equal to a cut point falls in the higher tier. *)
Example tiers_at_cut_points :
  getHealthScore (dec 1 2) one = NeedsWork
  /\ getHealthScore (dec 4 5) one = AlmostThere
  /\ getHealthScore one one = OnTrack
  /\ getHealthScore (dec 13 10) one = Overachiever
  /\ getHealthScore (dec 49 100) one = VeryWeak.
Proof. repeat split. Qed.

(** The values at a return of -3600% a year: the required contribution,
    the contributions' value and coverage with 100 a month, the lump sum
    with 100 saved over a quarter. *)
Example steep_loss_values :
  option_map (fun res => option_map floor_of (monthlyRequired res))
    (computeResults pow_unused steep_loss) = Some (Some (Some (-100)%Z))
  /\ option_map (fun res => (floor_of (fvSip res), floor_of (coverage res)))
       (computeResults pow_unused
          (with_monthlyContribution steep_loss "100"))
     = Some (Some (-2100)%Z, Some (-1)%Z)
  /\ option_map (fun res => floor_of (fvLump res))
       (computeResults pow_unused
          (with_currentSavings steep_loss_quarter "100"))
     = Some (Some (-800)%Z).
Proof. repeat split; vm_compute; reflexivity. Qed.

(** The horizon field [-2]: the months sampled by the first scenario, and
    by the run on the normalized horizon plus 2. *)
Example backdated_months :
  option_map (fun res => map month (projection res))
    (computeResults pow_unused (plus2Years_inputs (inputs backdated)))
  = Some [1; 6; 12; 18; 24]%Z
  /\ option_map (fun res => map month (projection res))
       (computeResults pow_unused (plus2Years_spec (inputs backdated)))
     = Some [1%Z].
Proof. split; vm_compute; reflexivity. Qed.

Local Open Scope string_scope.

(** What [Number] reads from a few texts. *)
Example StringToNumber_samples :
  StringToNumber "" = zero
  /\ StringToNumber "  " = zero
  /\ StringToNumber "abc" = NaN
  /\ StringToNumber "12px" = NaN
  /\ StringToNumber "1,000" = NaN
  /\ StringToNumber "." = NaN
  /\ StringToNumber "Infinity" = PInf
  /\ StringToNumber "-Infinity" = NInf
  /\ map (fun s => floor_of (mul (StringToNumber s) (ofZ 100)))
         [" 12 "; "-2"; "+5"; "0.25"; ".5"; "5."; "1e3"; "1.5e-1"; "0x1F";
          "0b101"; "0o17"; "00012"]
     = map Some [1200; -200; 500; 25; 50; 500; 100000; 15; 3100; 500; 1500;
                 1200]%Z.
Proof. repeat split. Qed.

(** What [toString] writes, and that [Number] reads it back. *)
Example toString_samples :
  map (fun s => toString (Number s))
      ["12"; "-2"; "0.50"; "1e21"; "1e20"; "1e-7"; "7e-6"; "0x1F"; "abc";
       "-Infinity"; "1500002.25"]
  = ["12"; "-2"; "0.5"; "1e+21"; "100000000000000000000"; "1e-7";
     "0.000007"; "31"; "NaN"; "-Infinity"; "1500002.25"]
  /\ forallb (fun s => seq (Number (toString (Number s))) (Number s))
             ["12"; "-2"; "0.50"; "1e21"; "1e20"; "1e-7"; "7e-6"; "0x1F";
              "Infinity"; "1500002.25"]
     = true.
Proof. split; vm_compute; reflexivity. Qed.

(** An infinite horizon: the trajectory loop has no last turn. *)
Example infinite_horizon (pow_frac : Qc -> Qc -> Qc) (inputs : Inputs) :
  Number (years inputs) = PInf -> computeResults pow_frac inputs = None.
Proof.
  intro H. unfold computeResults. rewrite H. reflexivity.
Qed.

End Properties.

(* ================================================================= *)
(** ** Further properties of the calculator and of the component's handlers *)

Module Extras.
Import JS Planner Spec JSFacts Properties.

(* ----------------------------------------------------------------- *)
(** *** When [computeResults] returns, and which months it records *)

Lemma seq_ofZ (a b : Z) : seq (ofZ a) (ofZ b) = (a =? b)%Z.
Proof.
  unfold ofZ. cbn [seq]. destruct (a =? b)%Z eqn:E.
  - apply Z.eqb_eq in E. subst. now apply Qceqb_eq.
  - apply Z.eqb_neq in E. apply Qceqb_neq. intro H. apply E.
    apply Qc_eq_Q in H. rewrite !this_inject_Z in H.
    now apply inject_Z_injective.
Qed.

Lemma counters_S (m : Z) (n : nat) :
  counters m (S n) = m :: counters (m + 1) n.
Proof.
  unfold counters. cbn [List.seq map]. rewrite Z.add_0_r. apply f_equal.
  rewrite <- seq_shift, map_map. apply map_ext. intro i. lia.
Qed.

Lemma trajectory_months (r rm mc : num) (N : Z) (k : nat) :
  forall (m : Z) (v : num),
    map month (trajectory r rm mc (ofZ N) k m v)
    = filter (sample_month N) (counters m k).
Proof.
  induction k as [|k IH]; intros m v; [reflexivity|].
  rewrite counters_S. cbn [trajectory filter].
  unfold sampled at 1, sample_month at 1. rewrite seq_ofZ.
  destruct ((m =? 1)%Z || (Z.rem m 6 =? 0)%Z || (m =? N)%Z);
    cbn [map month]; now rewrite IH.
Qed.

Lemma trajectory_points (r rm mc months : num) (k : nat) :
  forall (m : Z) (v : num),
    Forall (fun p => exists j : nat,
                (j < k)%nat /\ month p = (m + Z.of_nat j)%Z
                /\ value p = value_after r rm mc (S j) v
                /\ yearLabel p = year_label (month p))
           (trajectory r rm mc months k m v).
Proof.
  induction k as [|k IH]; intros m v; [constructor|].
  cbn [trajectory].
  assert (Hrest : Forall (fun p => exists j : nat,
                (j < S k)%nat /\ month p = (m + Z.of_nat j)%Z
                /\ value p = value_after r rm mc (S j) v
                /\ yearLabel p = year_label (month p))
           (trajectory r rm mc months k (m + 1) (grow r rm mc v))).
  { eapply Forall_impl; [|apply IH].
    intros p (j & Hj & Hm & Hv & Hy). exists (S j).
    split; [lia|]. split; [lia|]. split; [|exact Hy].
    rewrite Hv. unfold value_after. now rewrite <- Nat.iter_succ_r. }
  destruct (sampled m months); [|exact Hrest].
  constructor; [|exact Hrest].
  exists O. cbn [month value yearLabel].
  split; [lia|]. split; [lia|]. split; reflexivity.
Qed.

(** X1.  [computeResults] does not return when the text of [years] reads
    [+Infinity], and it returns for every horizon within [horizon_limit].
    Whenever it returns, the horizon is a whole number [n >= 1] of months
    and the projection records, in increasing order, exactly the months [m]
    of [1 .. n] with [m = 1], [m] a multiple of [6] or [m = n], each
    labelled by [year_label] of its own month. *)
Theorem computeResults_returns (pf : Qc -> Qc -> Qc) (inputs : Inputs) :
  (Number (years inputs) = PInf -> computeResults pf inputs = None)
  /\ (within_horizon inputs ->
      exists res, computeResults pf inputs = Some res)
  /\ forall res, computeResults pf inputs = Some res ->
       exists n : nat,
         (1 <= n)%nat
         /\ months_of inputs = ofZ (Z.of_nat n)
         /\ map month (projection res)
            = filter (sample_month (Z.of_nat n)) (counters 1 n)
         /\ map yearLabel (projection res)
            = map year_label (map month (projection res)).
Proof.
  split; [apply computeResults_none|].
  split; [apply within_horizon_returns|].
  intros res H.
  assert (Hy : Number (years inputs) <> PInf).
  { intro E. apply (computeResults_none pf) in E. congruence. }
  destruct (turns_months inputs Hy) as (n & Hn & Hm & Ht).
  rewrite (computeResults_fields pf inputs n Ht) in H.
  injection H as <-. cbn [projection]. unfold projection_of. rewrite Hm.
  exists n. split; [exact Hn|]. split; [reflexivity|].
  split; [apply trajectory_months|].
  pose proof (trajectory_points (r_of inputs) (rm_of inputs)
                (norm (monthlyContribution inputs)) (ofZ (Z.of_nat n)) n 1
                (norm (currentSavings inputs))) as HP.
  induction HP as [|p l (j & _ & _ & _ & Hl) _ IH]; [reflexivity|].
  cbn [map]. now rewrite Hl, IH.
Qed.

(** X2.  [computeResults] returns for every horizon within
    [horizon_limit].  Whenever it returns, the horizon is a whole number
    [n] of months and the value recorded for a month [k] of [1 .. n] is the
    running value after [k] turns of the loop's update
    ([value * (1 + rm) + monthlyContribution], or
    [value + monthlyContribution] at a zero annual rate), started from the
    current savings: sampling one month in six does not disturb the
    accumulation. *)
Theorem projection_on_curve (pf : Qc -> Qc -> Qc) (inputs : Inputs) :
  (within_horizon inputs ->
   exists res, computeResults pf inputs = Some res)
  /\ forall res,
       computeResults pf inputs = Some res ->
       exists n : nat,
         months_of inputs = ofZ (Z.of_nat n)
         /\ Forall (fun p => exists k : nat,
                        (1 <= k <= n)%nat /\ month p = Z.of_nat k
                        /\ value p =
                           value_after (r_of inputs) (rm_of inputs)
                             (norm (monthlyContribution inputs)) k
                             (norm (currentSavings inputs)))
                   (projection res).
Proof.
  split; [apply within_horizon_returns|].
  intros res H.
  assert (Hy : Number (years inputs) <> PInf).
  { intro E. apply (computeResults_none pf) in E. congruence. }
  destruct (turns_months inputs Hy) as (n & Hn & Hm & Ht).
  rewrite (computeResults_fields pf inputs n Ht) in H.
  injection H as <-. cbn [projection]. unfold projection_of.
  exists n. split; [exact Hm|].
  eapply Forall_impl; [|apply trajectory_points].
  intros p (j & Hj & Hmo & Hv & _). exists (Datatypes.S j).
  split; [lia|]. split; [lia | exact Hv].
Qed.

(* ----------------------------------------------------------------- *)
(** *** The required contribution closes the gap *)







(* ----------------------------------------------------------------- *)
(** *** Gap, coverage and health agree *)

Lemma tier_of_coverage_on_track (c : num) :
  (tier_of_coverage c = OnTrack \/ tier_of_coverage c = Overachiever)
  <-> lt c one = false.
Proof.
  unfold tier_of_coverage.
  assert (H12 : lt c (dec 1 2) = true -> lt c one = true).
  { destruct c as [| | |q]; try (intro; discriminate); [reflexivity|].
    unfold dec, one, ofZ. cbn [lt]. intro H. apply Qcltb_lt in H.
    apply Qcltb_lt. apply Qclt_trans with (y := Q2Qc (1 # 2)); [exact H|].
    reflexivity. }
  assert (H45 : lt c (dec 4 5) = true -> lt c one = true).
  { destruct c as [| | |q]; try (intro; discriminate); [reflexivity|].
    unfold dec, one, ofZ. cbn [lt]. intro H. apply Qcltb_lt in H.
    apply Qcltb_lt. apply Qclt_trans with (y := Q2Qc (4 # 5)); [exact H|].
    reflexivity. }
  destruct (lt c (dec 1 2)) eqn:E1.
  { rewrite (H12 eq_refl). split; [intros [H|H]; discriminate H|].
    intro H; discriminate H. }
  destruct (lt c (dec 4 5)) eqn:E2.
  { rewrite (H45 eq_refl). split; [intros [H|H]; discriminate H|].
    intro H; discriminate H. }
  destruct (lt c one) eqn:E3.
  { split; [intros [H|H]; discriminate H|]. intro H; discriminate H. }
  split; [reflexivity|]. intros _.
  destruct (lt c (dec 13 10)); [now left | now right].
Qed.

(** X4.  Whenever [computeResults] returns, the total and the effective
    target it stores are the ones computed from the input fields, and the
    verdicts it stores agree, whatever the values: the gap is
    [fvTotal - effectiveTarget]; with a positive effective target the
    coverage is [fvTotal / effectiveTarget] and the tier is the one the
    table of section 4.4 gives for that coverage, so that the tier is
    "On track" or "Overachiever" exactly when the coverage is not below
    [1]; with an effective target that is not positive the coverage is [0]
    and the tier is the sentinel; and with an effective target that is no
    number the coverage is [0] while the tier is "Overachiever". *)
Theorem gap_coverage_health (pf : Qc -> Qc -> Qc) (inputs : Inputs) :
  (within_horizon inputs ->
   exists res, computeResults pf inputs = Some res)
  /\ forall res,
       computeResults pf inputs = Some res ->
       fvTotal res = fvTotal_of pf inputs
       /\ effectiveTarget res = effectiveTarget_of pf inputs
       /\ gap res = sub (fvTotal res) (effectiveTarget res)
       /\ (gt (effectiveTarget res) zero = true ->
           coverage res = div (fvTotal res) (effectiveTarget res)
           /\ health res = tier_of_coverage (coverage res)
           /\ ((health res = OnTrack \/ health res = Overachiever)
               <-> lt (coverage res) one = false))
       /\ (le (effectiveTarget res) zero = true ->
           coverage res = zero /\ health res = SetAGoalFirst)
       /\ (effectiveTarget res = NaN ->
           coverage res = zero /\ health res = Overachiever).
Proof.
  split; [apply within_horizon_returns|].
  intros res H. rewrite (computeResults_returned pf inputs res H).
  cbn [gap fvTotal effectiveTarget coverage health].
  unfold coverage_of.
  split; [reflexivity|]. split; [reflexivity|].
  generalize (fvTotal_of pf inputs). intro ft.
  generalize (effectiveTarget_of pf inputs). intro et.
  split; [reflexivity|]. split; [|split].
  - intro Hpos. rewrite Hpos.
    assert (Hle : le et zero = false).
    { destruct et as [| | |q]; try discriminate Hpos; [reflexivity|].
      unfold gt, zero, ofZ in *. cbn [lt le] in *.
      apply Qcltb_lt in Hpos. apply Qcleb_gt. exact Hpos. }
    assert (Hh : getHealthScore ft et = tier_of_coverage (div ft et)).
    { unfold getHealthScore. rewrite Hle. reflexivity. }
    split; [reflexivity|]. split; [exact Hh|].
    rewrite Hh. apply tier_of_coverage_on_track.
  - intro Hle.
    assert (Hgt : gt et zero = false).
    { destruct et as [| | |q]; try discriminate Hle; [reflexivity|].
      unfold gt, zero, ofZ in *. cbn [lt le] in *.
      apply Qcleb_le in Hle. apply Qcltb_ge. exact Hle. }
    rewrite Hgt. split; [reflexivity|].
    now apply getHealthScore_no_target.
  - intros ->. split; [reflexivity|].
    unfold getHealthScore. cbn [le]. unfold div.
    destruct ft; reflexivity.
Qed.

(* ----------------------------------------------------------------- *)
(** *** Inflation *)

Lemma inflationFactor_ge_1 (pf : Qc -> Qc -> Qc) (inputs : Inputs)
    (Y I : Qc) :
  (forall b e : Qc, (1 < b)%Qc -> (0 < e)%Qc -> (1 <= pf b e)%Qc) ->
  norm (years inputs) = Fin Y ->
  norm (inflationRate inputs) = Fin I ->
  exists f, inflationFactor_of pf inputs = Fin f
            /\ (1 <= f)%Qc
            /\ ((Y <= 0)%Qc \/ (I <= 0)%Qc -> f = 1%Qc).
Proof.
  intros Hpf HY HI. unfold inflationFactor_of. rewrite HY, HI.
  unfold gt, zero, ofZ. cbn [lt]. change (Q2Qc (inject_Z 0)) with 0%Qc.
  destruct (Qcltb 0 Y) eqn:EY.
  2:{ exists 1%Qc. split; [reflexivity|]. split; [apply Qcle_refl|].
      reflexivity. }
  destruct (Qcltb 0 I) eqn:EI.
  2:{ exists 1%Qc. split; [reflexivity|]. split; [apply Qcle_refl|].
      reflexivity. }
  cbn [andb]. apply Qcltb_lt in EY, EI.
  rewrite div_Fin by (apply ofZ_neq_0; lia).
  unfold one, ofZ. cbn [add].
  set (b := (Q2Qc (inject_Z 1) + I / Q2Qc (inject_Z 100))%Qc).
  assert (Hb : (1 < b)%Qc).
  { assert (0 < I / Q2Qc (inject_Z 100))%Qc
      by (apply Qcdiv_pos_pos; [exact EI | to_Q; unfold inject_Z; lra]).
    unfold b. revert H. generalize (I / Q2Qc (inject_Z 100))%Qc. intro x.
    to_Q. unfold inject_Z. intros. lra. }
  assert (Hb0 : (0 < b)%Qc).
  { revert Hb. generalize b. intro x. to_Q. unfold inject_Z. intros. lra. }
  assert (Hnot : forall f, (1 <= f)%Qc ->
            ((Y <= 0)%Qc \/ (I <= 0)%Qc -> f = 1%Qc)).
  { intros f _ [H|H]; exfalso.
    - apply (Qclt_not_le _ _ EY H).
    - apply (Qclt_not_le _ _ EI H). }
  unfold Math_pow.
  replace (is_zero (Fin Y)) with false
    by (symmetry; apply Qceqb_neq; intros ->; now apply (Qclt_not_eq _ _ EY)).
  replace (Qceqb b 0) with false
    by (symmetry; apply Qceqb_neq; intro E0; rewrite E0 in Hb0;
        now apply (Qclt_not_eq _ _ Hb0)).
  unfold pow_finite.
  rewrite (proj2 (Qcltb_lt 0 Y) EY).
  rewrite (proj2 (Qcltb_ge b 0) (Qclt_le_weak _ _ Hb0)).
  destruct (is_integer Y).
  - eexists. split; [reflexivity|].
    assert (Hp : (1 <= b ^ Z.to_nat (Qnum Y))%Qc).
    { apply Qclt_le_weak. apply Qcpower_gt_1; [exact Hb|].
      assert (0 < Qnum Y)%Z.
      { unfold Qclt, Qlt in EY. cbn in EY. lia. }
      lia. }
    split; [exact Hp | now apply Hnot].
  - eexists. split; [reflexivity|].
    assert (Hp : (1 <= pf b Y)%Qc) by now apply Hpf.
    split; [exact Hp | now apply Hnot].
Qed.

(** X5.  Inflation never moves the target towards zero.  Provided
    [Math.pow] at a fractional exponent is at least [1] for a base above
    [1] and a positive exponent, finite normalized inputs give, whenever
    [computeResults] returns, an effective target that is not below a
    non-negative [targetAmount] and not above a non-positive one (it may be
    no number at all: the comparisons are the program's, false on [NaN]);
    when [years] or [inflationRate] is not positive the factor is [1] and
    the effective target is the target. *)
Theorem inflation_raises_target (pf : Qc -> Qc -> Qc) (inputs : Inputs) :
  (forall b e : Qc, (1 < b)%Qc -> (0 < e)%Qc -> (1 <= pf b e)%Qc) ->
  finite_inputs inputs ->
  (within_horizon inputs ->
   exists res, computeResults pf inputs = Some res)
  /\ forall res,
       computeResults pf inputs = Some res ->
       effectiveTarget res = effectiveTarget_of pf inputs
       /\ (ge (norm (targetAmount inputs)) zero = true ->
           lt (effectiveTarget res) (norm (targetAmount inputs)) = false)
       /\ (le (norm (targetAmount inputs)) zero = true ->
           gt (effectiveTarget res) (norm (targetAmount inputs)) = false)
       /\ (le (norm (years inputs)) zero = true
           \/ le (norm (inflationRate inputs)) zero = true ->
           effectiveTarget res = norm (targetAmount inputs)).
Proof.
  intros Hpf Hfin. split; [apply within_horizon_returns|].
  intros res H. rewrite (computeResults_returned pf inputs res H).
  cbn [effectiveTarget]. split; [reflexivity|].
  destruct Hfin as (HT & HY & HI & _).
  apply finite_inv in HT, HY, HI.
  destruct HT as [T HT], HY as [Y HY], HI as [I HI].
  destruct (inflationFactor_ge_1 pf inputs Y I Hpf HY HI)
    as (f & Hf & Hf1 & Hfeq).
  unfold effectiveTarget_of. rewrite Hf, HT, HY, HI.
  unfold ge, gt, zero, ofZ. cbn [mul lt le].
  change (Q2Qc (inject_Z 0)) with 0%Qc.
  split; [|split].
  - intro H0. apply Qcleb_le in H0. apply Qcltb_ge.
    revert Hf1 H0. to_Q. unfold inject_Z. intros. nra.
  - intro H0. apply Qcleb_le in H0. apply Qcltb_ge.
    revert Hf1 H0. to_Q. unfold inject_Z. intros. nra.
  - intro H0. rewrite Hfeq; [apply f_equal; ring|].
    destruct H0 as [H0|H0]; apply Qcleb_le in H0; [left | right]; exact H0.
Qed.

Lemma inflation_raises_target_witness :
  exists res,
    computeResults pow_unused spec_scenario = Some res
    /\ lt (effectiveTarget res) (norm (targetAmount spec_scenario)) = false.
Proof.
  destruct (inflation_raises_target pow_unused spec_scenario) as [Hret Hall].
  - intros b e _ _. apply Qcle_refl.
  - repeat split.
  - destruct Hret as [res Hres]; [reflexivity|].
    exists res. split; [exact Hres|].
    destruct (Hall res Hres) as (_ & Hge & _). apply Hge. reflexivity.
Defined.

(* ----------------------------------------------------------------- *)
(** *** What the scenarios leave alone *)

Lemma with_targetAmount_frame (pf : Qc -> Qc -> Qc) (base : Inputs)
    (v : string) :
  months_of (with_targetAmount base v) = months_of base
  /\ fvLump_of pf (with_targetAmount base v) = fvLump_of pf base
  /\ fvSip_of pf (with_targetAmount base v) = fvSip_of pf base
  /\ fvTotal_of pf (with_targetAmount base v) = fvTotal_of pf base
  /\ forall n, projection_of (with_targetAmount base v) n
               = projection_of base n.
Proof.
  unfold fvTotal_of, fvSip_of, fvLump_of, growth_of, projection_of,
    months_of, rm_of, r_of.
  cbn [with_targetAmount years currentSavings monthlyContribution
       annualReturn].
  repeat split.
Qed.

Lemma with_monthlyContribution_frame (pf : Qc -> Qc -> Qc) (base : Inputs)
    (v : string) :
  months_of (with_monthlyContribution base v) = months_of base
  /\ fvLump_of pf (with_monthlyContribution base v) = fvLump_of pf base
  /\ effectiveTarget_of pf (with_monthlyContribution base v)
     = effectiveTarget_of pf base.
Proof.
  unfold effectiveTarget_of, inflationFactor_of, fvLump_of, growth_of,
    months_of, rm_of, r_of.
  cbn [with_monthlyContribution years currentSavings annualReturn
       targetAmount inflationRate].
  repeat split.
Qed.

(** X6.  The reduced-target scenario returns exactly when the base run does
    and has the base run's [fvLump], [fvSip], [fvTotal] and projection; the
    raised-contribution scenario returns exactly when the base run does and
    has its [fvLump] and [effectiveTarget]. *)
Theorem scenario_frames (pf : Qc -> Qc -> Qc) (base : Inputs) :
  (computeResults pf (minus2LTarget_inputs base) = None
   <-> computeResults pf base = None)
  /\ (computeResults pf (plus2kSip_inputs base) = None
      <-> computeResults pf base = None)
  /\ (forall r s,
        computeResults pf base = Some r ->
        computeResults pf (minus2LTarget_inputs base) = Some s ->
        fvLump s = fvLump r /\ fvSip s = fvSip r /\ fvTotal s = fvTotal r
        /\ projection s = projection r)
  /\ (forall r s,
        computeResults pf base = Some r ->
        computeResults pf (plus2kSip_inputs base) = Some s ->
        fvLump s = fvLump r /\ effectiveTarget s = effectiveTarget r).
Proof.
  unfold minus2LTarget_inputs, plus2kSip_inputs.
  generalize (toString (Math_max zero
                (sub (or_else (Number (targetAmount base)) zero)
                     (ofZ 200000)))).
  generalize (toString (add (or_else (Number (monthlyContribution base)) zero)
                            (ofZ 2000))).
  intros vm vt.
  destruct (with_targetAmount_frame pf base vt) as (Tm & TL & TP & TT & Tpr).
  destruct (with_monthlyContribution_frame pf base vm) as (Mm & ML & ME).
  split; [|split; [|split]].
  - rewrite !computeResults_none. reflexivity.
  - rewrite !computeResults_none. reflexivity.
  - intros r s Hr Hs.
    destruct (computeResults_some pf _ _ Hr) as (n & Ht & Er).
    destruct (computeResults_some pf _ _ Hs) as (n' & Ht' & Es).
    rewrite Tm in Ht'.
    assert (En : Some n = Some n') by (rewrite <- Ht; exact Ht').
    injection En as <-.
    rewrite Er in Hr. rewrite Es in Hs.
    injection Hr as <-. injection Hs as <-.
    cbn [fvLump fvSip fvTotal projection].
    rewrite TL, TP, TT, Tpr. repeat split.
  - intros r s Hr Hs.
    destruct (computeResults_some pf _ _ Hr) as (n & Ht & Er).
    destruct (computeResults_some pf _ _ Hs) as (n' & Ht' & Es).
    rewrite Er in Hr. rewrite Es in Hs.
    injection Hr as <-. injection Hs as <-.
    cbn [fvLump effectiveTarget].
    rewrite ML, ME. split; reflexivity.
Qed.

(** X7.  For a goal whose target is at most 200000 the reduced-target
    scenario runs on the target text [0].  Whenever it returns, its
    effective target is [0] times the base inputs' inflation factor and
    its coverage is [0].  With a finite factor the effective target is [0]
    and the tier is the sentinel "Set a goal first"; with an infinite
    factor the effective target is no number and the tier is
    "Overachiever". *)
Theorem scenario_minus2LTarget_small_target
    (pf : Qc -> Qc -> Qc) (base : Inputs) :
  le (norm (targetAmount base)) (ofZ 200000) = true ->
  targetAmount (minus2LTarget_inputs base) = "0"%string
  /\ (within_horizon base ->
      exists s, computeResults pf (minus2LTarget_inputs base) = Some s)
  /\ forall s,
       computeResults pf (minus2LTarget_inputs base) = Some s ->
       effectiveTarget s = mul zero (inflationFactor_of pf base)
       /\ coverage s = zero
       /\ (finite (inflationFactor_of pf base) ->
           seq (effectiveTarget s) zero = true
           /\ health s = SetAGoalFirst)
       /\ (inflationFactor_of pf base = PInf ->
           effectiveTarget s = NaN /\ health s = Overachiever).
Proof.
  intro Hle.
  assert (Htext : targetAmount (minus2LTarget_inputs base) = "0"%string).
  { unfold minus2LTarget_inputs. cbn [with_targetAmount targetAmount].
    fold (norm (targetAmount base)).
    assert (Hmax : Math_max zero (sub (norm (targetAmount base))
                                      (ofZ 200000)) = zero).
    { pose proof (norm_not_NaN (targetAmount base)) as Hnan.
      destruct (norm (targetAmount base)) as [| | |T];
        [congruence | discriminate Hle | reflexivity |].
      apply Qcleb_le in Hle.
      unfold sub, neg, Math_max, zero. unfold ofZ. cbn [add lt].
      replace (Qcltb (Q2Qc (inject_Z 0)) (T + - Q2Qc (inject_Z 200000)))
        with false; [reflexivity|].
      symmetry. apply Qcltb_ge. revert Hle. to_Q. unfold inject_Z.
      intros. lra. }
    rewrite Hmax. reflexivity. }
  split; [exact Htext|]. split.
  { intro Hh. apply within_horizon_returns. exact Hh. }
  intros s H.
  rewrite (computeResults_returned pf _ s H).
  cbn [effectiveTarget coverage health].
  assert (HE : effectiveTarget_of pf (minus2LTarget_inputs base)
               = mul zero (inflationFactor_of pf base)).
  { unfold effectiveTarget_of. rewrite Htext. reflexivity. }
  unfold coverage_of. rewrite HE.
  generalize (fvTotal_of pf (minus2LTarget_inputs base)). intro ft.
  generalize (inflationFactor_of pf base). intro f.
  split; [reflexivity|]. split; [|split].
  - destruct f as [| | |q]; reflexivity.
  - destruct f as [| | |q]; cbn [finite]; try (intro Hf; contradiction).
    intros _.
    unfold zero, ofZ. cbn [mul]. split.
    + apply Qceqb_eq. rewrite Qcmult_0_l. reflexivity.
    + apply getHealthScore_no_target. apply Qcleb_le. rewrite Qcmult_0_l.
      apply Qcle_refl.
  - intros ->. split; [reflexivity|].
    change (mul zero PInf) with NaN. unfold getHealthScore. cbn [le].
    unfold div. destruct ft; reflexivity.
Qed.

Lemma scenario_minus2LTarget_small_target_witness :
  targetAmount (minus2LTarget_inputs zero_return_scenario) = "0"%string
  /\ exists s,
       computeResults pow_unused (minus2LTarget_inputs zero_return_scenario)
       = Some s
       /\ coverage s = zero /\ health s = SetAGoalFirst.
Proof.
  destruct (scenario_minus2LTarget_small_target pow_unused
              zero_return_scenario) as (Htext & Hret & Hall).
  - reflexivity.
  - split; [exact Htext|].
    destruct Hret as [s Hs]; [reflexivity|].
    exists s. split; [exact Hs|].
    destruct (Hall s Hs) as (_ & Hc & Hfin & _).
    split; [exact Hc|]. apply Hfin. exact I.
Defined.

(* ----------------------------------------------------------------- *)
(** *** The chart scale *)

Lemma fold_Math_max_Fin (l : list Qc) (a : Qc) :
  exists m, fold_left Math_max (map Fin l) (Fin a) = Fin m
            /\ (m = a \/ In m l)
            /\ (a <= m)%Qc
            /\ Forall (fun x => (x <= m)%Qc) l.
Proof.
  revert a. induction l as [|x l IH]; intro a.
  - exists a. split; [reflexivity|]. split; [now left|].
    split; [apply Qcle_refl | constructor].
  - cbn [map fold_left]. unfold Math_max at 2. cbn [lt].
    destruct (Qcltb a x) eqn:E.
    + apply Qcltb_lt in E.
      destruct (IH x) as (m & Hm & Hin & Hle & Hall).
      exists m. split; [exact Hm|]. split.
      { right. destruct Hin as [->|Hin]; [now left | now right]. }
      split.
      { apply Qcle_trans with (y := x); [now apply Qclt_le_weak | exact Hle]. }
      constructor; assumption.
    + apply Qcltb_ge in E.
      destruct (IH a) as (m & Hm & Hin & Hle & Hall).
      exists m. split; [exact Hm|]. split.
      { destruct Hin as [->|Hin]; [now left | right; now right]. }
      split; [exact Hle|].
      constructor; [|exact Hall].
      apply Qcle_trans with (y := a); assumption.
Qed.

Lemma Math_max_list_Fin (x : Qc) (l : list Qc) :
  exists m, Math_max_list (map Fin (x :: l)) = Fin m
            /\ In m (x :: l)
            /\ Forall (fun y => (y <= m)%Qc) (x :: l).
Proof.
  unfold Math_max_list. cbn [map fold_left].
  change (Math_max NInf (Fin x)) with (Fin x).
  destruct (fold_Math_max_Fin l x) as (m & Hm & Hin & Hle & Hall).
  exists m. split; [exact Hm|]. split.
  - destruct Hin as [->|Hin]; [now left | now right].
  - constructor; assumption.
Qed.

Lemma Forall_Fin_values (P : Qc -> Prop) (pts : list ProjectionPoint) :
  Forall (fun p => exists q, value p = Fin q /\ P q) pts ->
  exists qs, map value pts = map Fin qs /\ Forall P qs.
Proof.
  induction 1 as [|p pts (q & Hq & HP) _ (qs & Hqs & Hall)].
  - exists []. split; [reflexivity | constructor].
  - exists (q :: qs). cbn [map]. rewrite Hq, Hqs.
    split; [reflexivity | now constructor].
Qed.

Lemma curve_nonneg_mono (S M A : Qc) (k : nat) :
  (0 <= S)%Qc -> (0 <= M)%Qc -> (0 <= A)%Qc ->
  (0 <= lump S A k + sip M A k)%Qc
  /\ (lump S A k + sip M A k
      <= lump S A (Datatypes.S k) + sip M A (Datatypes.S k))%Qc.
Proof.
  intros HS HM HA.
  assert (Hrm : (0 <= monthly_rate A)%Qc).
  { apply (monthly_rate_bound A 0). exact HA. }
  induction k as [|k [IH0 _]].
  - rewrite closed_form_step, closed_form_0.
    split; [exact HS|].
    destruct (Qceqb A 0); revert HS HM Hrm;
      generalize (monthly_rate A); intro rm; to_Q; unfold inject_Z;
      intros; nra.
  - assert (H1 : (lump S A k + sip M A k
                  <= lump S A (Datatypes.S k) + sip M A (Datatypes.S k))%Qc).
    { rewrite closed_form_step.
      destruct (Qceqb A 0); revert IH0 HM Hrm;
        generalize (monthly_rate A) (lump S A k + sip M A k)%Qc;
        intros rm V; to_Q; unfold inject_Z; intros; nra. }
    assert (H2 : (0 <= lump S A (Datatypes.S k) + sip M A (Datatypes.S k))%Qc)
      by (apply Qcle_trans with (y := (lump S A k + sip M A k)%Qc);
          assumption).
    split; [exact H2|].
    rewrite (closed_form_step S M A (Datatypes.S k)).
    destruct (Qceqb A 0); revert H2 HM Hrm;
      generalize (monthly_rate A)
                 (lump S A (Datatypes.S k) + sip M A (Datatypes.S k))%Qc;
      intros rm V; to_Q; unfold inject_Z; intros; nra.
Qed.

Lemma curve_mono (S M A : Qc) (j k : nat) :
  (0 <= S)%Qc -> (0 <= M)%Qc -> (0 <= A)%Qc -> (j <= k)%nat ->
  (lump S A j + sip M A j <= lump S A k + sip M A k)%Qc.
Proof.
  intros HS HM HA Hjk. induction Hjk as [|k _ IH]; [apply Qcle_refl|].
  apply Qcle_trans with (y := (lump S A k + sip M A k)%Qc); [exact IH|].
  now apply curve_nonneg_mono.
Qed.

Lemma lt_le_num (a b : num) : lt a b = true -> le a b = true.
Proof.
  destruct a as [| | |x], b as [| | |y]; cbn [lt le]; try easy.
  intro H. apply Qcltb_lt in H. apply Qcleb_le. now apply Qclt_le_weak.
Qed.

Lemma not_lt_le_num (a b : num) :
  a <> NaN -> b <> NaN -> lt a b = false -> le b a = true.
Proof.
  destruct a as [| | |x], b as [| | |y]; cbn [lt le]; try easy.
  intros _ _ H. apply Qcltb_ge in H. now apply Qcleb_le.
Qed.

Lemma le_trans_num (a b c : num) :
  le a b = true -> le b c = true -> le a c = true.
Proof.
  destruct a as [| | |x], b as [| | |y], c as [| | |z]; cbn [le]; try easy.
  intros H1 H2. apply Qcleb_le in H1, H2. apply Qcleb_le.
  now apply Qcle_trans with (y := y).
Qed.

Lemma le_refl_num (a : num) : a <> NaN -> le a a = true.
Proof.
  destruct a as [| | |x]; cbn [le]; try easy.
  intros _. apply Qcleb_le. apply Qcle_refl.
Qed.

Lemma fold_Math_max_NaN (l : list num) : fold_left Math_max l NaN = NaN.
Proof. induction l as [|x l IH]; [reflexivity | exact IH]. Qed.

Lemma fold_Math_max_has_NaN (l : list num) (a : num) :
  In NaN l -> fold_left Math_max l a = NaN.
Proof.
  revert a. induction l as [|x l IH]; intros a; [intros []|].
  intros [->|Hin]; cbn [fold_left].
  - replace (Math_max a NaN) with NaN by (destruct a; reflexivity).
    apply fold_Math_max_NaN.
  - now apply IH.
Qed.

Lemma fold_Math_max_peak (l : list num) (a : num) :
  a <> NaN -> Forall (fun x => x <> NaN) l ->
  (fold_left Math_max l a = a \/ In (fold_left Math_max l a) l)
  /\ le a (fold_left Math_max l a) = true
  /\ Forall (fun x => le x (fold_left Math_max l a) = true) l.
Proof.
  revert a. induction l as [|x l IH]; intros a Ha Hl; cbn [fold_left].
  - split; [now left|]. split; [now apply le_refl_num | constructor].
  - inversion Hl as [|? ? Hx Hl']; subst.
    assert (Hmax : Math_max a x = if lt a x then x else a)
      by (destruct a, x; try reflexivity; congruence).
    rewrite Hmax. destruct (lt a x) eqn:E.
    + destruct (IH x Hx Hl') as (Hin & Hle & Hall).
      split; [destruct Hin as [->|Hin]; right; [now left | now right]|].
      split; [|now constructor].
      apply le_trans_num with (b := x); [now apply lt_le_num | exact Hle].
    + destruct (IH a Ha Hl') as (Hin & Hle & Hall).
      split; [destruct Hin as [->|Hin]; [now left | right; now right]|].
      split; [exact Hle|]. constructor; [|exact Hall].
      apply le_trans_num with (b := a); [|exact Hle].
      now apply not_lt_le_num.
Qed.

Lemma Math_max_list_peak (x : num) (l : list num) :
  Forall (fun y => y <> NaN) (x :: l) ->
  In (Math_max_list (x :: l)) (x :: l)
  /\ Forall (fun y => le y (Math_max_list (x :: l)) = true) (x :: l).
Proof.
  intro H. inversion H as [|? ? Hx Hl]; subst.
  unfold Math_max_list. cbn [fold_left].
  replace (Math_max NInf x) with x
    by (destruct x; try reflexivity; congruence).
  destruct (fold_Math_max_peak l x Hx Hl) as (Hin & Hle & Hall).
  split.
  - destruct Hin as [->|Hin]; [now left | now right].
  - now constructor.
Qed.

(** X8.  When the active goal stores the results of its own inputs and the
    horizon is within [horizon_limit], the projection is not empty and
    [maxValueForChart] is the largest recorded value: if no recorded value
    is [NaN] it is the value of a recorded point and no recorded value
    exceeds it, and if some recorded value is [NaN] it is [NaN].  For
    finite normalized inputs whose savings, contribution and return are
    all non-negative it is the value of the last recorded point. *)
Theorem maxValueForChart_is_peak (pf : Qc -> Qc -> Qc) (st : State)
    (g : Goal) :
  activeGoal st = Some g ->
  within_horizon (inputs g) ->
  results g = computeResults pf (inputs g) ->
  exists res front last,
    results g = Some res
    /\ projection res = front ++ [last]
    /\ (Forall (fun p => value p <> NaN) (projection res) ->
        exists peak,
          In peak (projection res)
          /\ maxValueForChart st = value peak
          /\ Forall (fun p => le (value p) (value peak) = true)
                    (projection res))
    /\ ((exists p, In p (projection res) /\ value p = NaN) ->
        maxValueForChart st = NaN)
    /\ (finite_inputs (inputs g) ->
        ge (norm (currentSavings (inputs g))) zero = true ->
        ge (norm (monthlyContribution (inputs g))) zero = true ->
        ge (norm (annualReturn (inputs g))) zero = true ->
        maxValueForChart st = value last).
Proof.
  intros Hact Hin Hres.
  assert (Hy : Number (years (inputs g)) <> PInf)
    by now apply within_horizon_finite.
  destruct (turns_months (inputs g) Hy) as (n & Hn & Hm & Ht).
  rewrite (computeResults_fields pf (inputs g) n Ht) in Hres.
  destruct n as [|n']; [lia|].
  destruct (trajectory_last (r_of (inputs g)) (rm_of (inputs g))
              (norm (monthlyContribution (inputs g)))
              (Z.of_nat (Datatypes.S n')) n'
              1 (norm (currentSavings (inputs g)))) as [front Hlast]; [lia|].
  rewrite <- Hm in Hlast.
  fold (projection_of (inputs g) (Datatypes.S n')) in Hlast.
  set (pts := projection_of (inputs g) (Datatypes.S n')) in *.
  assert (Hne : pts <> []).
  { rewrite Hlast. intro H. symmetry in H.
    exact (app_cons_not_nil _ _ _ H). }
  assert (Hchart : maxValueForChart st = Math_max_list (map value pts)).
  { unfold maxValueForChart. rewrite Hact, Hres. cbn [projection].
    destruct pts; [congruence | reflexivity]. }
  eexists. exists front. eexists.
  split; [exact Hres|]. cbn [projection].
  split; [exact Hlast|]. rewrite Hchart.
  split; [|split].
  - intro Hnan.
    assert (Hv : Forall (fun y => y <> NaN) (map value pts))
      by (apply Forall_map; exact Hnan).
    destruct (map value pts) as [|x vs] eqn:Ev.
    { destruct pts; [congruence | discriminate Ev]. }
    destruct (Math_max_list_peak x vs Hv) as [Hi Hall].
    rewrite <- Ev in Hi, Hall |- *.
    apply in_map_iff in Hi. destruct Hi as (peak & Hpv & Hpin).
    exists peak. split; [exact Hpin|]. split; [now symmetry|].
    rewrite Hpv. apply Forall_map in Hall. exact Hall.
  - intros (p & Hp & Hnan). unfold Math_max_list.
    apply fold_Math_max_has_NaN. rewrite <- Hnan. now apply in_map.
  - intros Hfin H1 H2 H3.
    destruct Hfin as (_ & _ & _ & HS & HM & HA).
    apply finite_inv in HS, HM, HA.
    destruct HS as [S HS], HM as [M HM], HA as [A HA].
    rewrite HS in H1. rewrite HM in H2. rewrite HA in H3.
    apply Qcleb_le in H1, H2, H3.
    change (Q2Qc (inject_Z 0)) with 0%Qc in H1, H2, H3.
    assert (Hpts : Forall (fun p => exists q, value p = Fin q /\
                     exists k, (k <= Datatypes.S n')%nat
                               /\ q = (lump S A k + sip M A k)%Qc) pts).
    { unfold pts, projection_of. rewrite HS, HM.
      eapply Forall_impl; [|apply trajectory_points].
      intros p (j & Hj & _ & Hv & _). eexists. split.
      - rewrite Hv.
        exact (value_after_closed (inputs g) S M A (Datatypes.S j) HA).
      - exists (Datatypes.S j). split; [lia | reflexivity]. }
    destruct (Forall_Fin_values _ _ Hpts) as (qs & Hqs & Hall).
    destruct qs as [|x qs].
    { destruct pts; [congruence | discriminate Hqs]. }
    destruct (Math_max_list_Fin x qs) as (m & Hmax & Hmin & Hle).
    rewrite Hqs, Hmax. cbn [value]. rewrite HS, HM.
    rewrite (value_after_closed (inputs g) S M A (Datatypes.S n') HA).
    apply f_equal. apply Qcle_antisym.
    + rewrite Forall_forall in Hall.
      destruct (Hall m Hmin) as (k & Hk & ->).
      now apply curve_mono.
    + assert (Hi : In (Fin (lump S A (Datatypes.S n')
                            + sip M A (Datatypes.S n'))%Qc)
                      (map Fin (x :: qs))).
      { rewrite <- Hqs, Hlast, map_app. apply in_or_app. right. left.
        cbn [value]. rewrite HS, HM. now apply value_after_closed. }
      apply in_map_iff in Hi. destruct Hi as (q & Hq & Hi).
      injection Hq as ->. rewrite Forall_forall in Hle. now apply Hle.
Qed.

Lemma maxValueForChart_is_peak_witness :
  exists res front last,
    computeResults pow_unused spec_scenario = Some res
    /\ projection res = front ++ [last]
    /\ maxValueForChart charted = value last.
Proof.
  destruct (maxValueForChart_is_peak pow_unused charted
              {| id := 1; inputs := spec_scenario;
                 results := computeResults pow_unused spec_scenario |})
    as (res & front & last & H1 & H2 & _ & _ & H5).
  - reflexivity.
  - reflexivity.
  - reflexivity.
  - exists res, front, last. split; [exact H1|]. split; [exact H2|].
    apply H5; [repeat split | reflexivity | reflexivity | reflexivity].
Defined.

(* ----------------------------------------------------------------- *)
(** *** The active goal *)

Lemma find_id_some (i : Z) (l : list Goal) (g : Goal) :
  find (fun h => (id h =? i)%Z) l = Some g -> In g l /\ id g = i.
Proof.
  intro H. apply find_some in H. destruct H as [Hin Hid].
  split; [exact Hin | now apply Z.eqb_eq].
Qed.

Lemma find_id_none (i : Z) (l : list Goal) :
  find (fun h => (id h =? i)%Z) l = None <-> ~ In i (map id l).
Proof.
  split.
  - intros H Hin. apply in_map_iff in Hin. destruct Hin as (g & Hg & Hin).
    apply (find_none _ _ H) in Hin. apply Z.eqb_neq in Hin. contradiction.
  - intro H. induction l as [|g l IH]; [reflexivity|].
    cbn [find]. destruct (id g =? i)%Z eqn:E.
    + apply Z.eqb_eq in E. exfalso. apply H. left. exact E.
    + apply IH. intro Hin. apply H. right. exact Hin.
Qed.

(** X9.  [activeGoal] is undefined exactly when there is no goal; otherwise
    it is a goal of the list: one that carries [activeGoalId] when some goal
    does, and the first goal of the list when none does. *)
Theorem activeGoal_lookup (st : State) :
  (activeGoal st = None <-> goals st = [])
  /\ (forall g, activeGoal st = Some g -> In g (goals st))
  /\ (In (activeGoalId st) (map id (goals st)) ->
      exists g, activeGoal st = Some g /\ id g = activeGoalId st)
  /\ (~ In (activeGoalId st) (map id (goals st)) ->
      activeGoal st = hd_error (goals st)).
Proof.
  unfold activeGoal.
  destruct (find _ (goals st)) as [g|] eqn:F.
  - destruct (find_id_some _ _ _ F) as [Hin Hid].
    split; [|split; [|split]].
    + split; [discriminate|]. intro E. rewrite E in Hin. destruct Hin.
    + intros h H. injection H as <-. exact Hin.
    + intros _. exists g. split; [reflexivity | exact Hid].
    + intro H. exfalso. apply H. apply in_map_iff. exists g. now split.
  - pose proof (proj1 (find_id_none _ _) F) as Hn.
    split; [|split; [|split]].
    + destruct (goals st); split; intro; try reflexivity; discriminate.
    + intros g H. destruct (goals st) as [|h l]; [discriminate|].
      injection H as <-. now left.
    + intro H. contradiction.
    + intros _. reflexivity.
Qed.

(* ----------------------------------------------------------------- *)
(** *** Editing the active goal *)

Lemma map_active_total (active : option Goal) (f : Goal -> Goal)
    (prev : list Goal) :
  (prev <> [] -> active <> None) ->
  exists a_id,
    (forall a, active = Some a -> a_id = id a)
    /\ map_active active f prev =
       Some (map (fun g => if (id g =? a_id)%Z then f g else g) prev).
Proof.
  intro H. destruct active as [a|].
  - exists (id a). split; [now intros b [= <-]|].
    induction prev as [|g rest IH]; [reflexivity|].
    cbn [map_active map]. rewrite IH by discriminate. reflexivity.
  - destruct prev as [|g rest]; [|exfalso; now apply H].
    exists 0%Z. split; [discriminate | reflexivity].
Qed.

Lemma active_of_nonempty (st : State) :
  goals st <> [] -> activeGoal st <> None.
Proof.
  unfold activeGoal. intro H.
  destruct (find _ (goals st)); [discriminate|].
  destruct (goals st); [contradiction | discriminate].
Qed.

Lemma get_set_field (field : Field) (value : string) (i : Inputs) :
  get_field field (set_field field value i) = value.
Proof. destruct field; reflexivity. Qed.

Lemma get_set_field_other (field other : Field) (value : string)
    (i : Inputs) :
  other <> field ->
  get_field other (set_field field value i) = get_field other i.
Proof. intro H. destruct field, other; try reflexivity; now elim H. Qed.

Lemma edited_map (field : Field) (value : string) (a_id : Z)
    (l : list Goal) :
  Forall2 (edited field value a_id) l
    (map (fun g => if (id g =? a_id)%Z
                   then with_inputs g (set_field field value (inputs g))
                   else g) l).
Proof.
  induction l as [|g l IH]; [constructor|].
  cbn [map]. constructor; [|exact IH].
  unfold edited. destruct (id g =? a_id)%Z eqn:E.
  - apply Z.eqb_eq in E. cbn [with_inputs id results inputs].
    split; [reflexivity|]. split; [reflexivity|]. split.
    + intro H. contradiction.
    + intros _. split; [apply get_set_field|].
      intros other Ho. now apply get_set_field_other.
  - apply Z.eqb_neq in E.
    split; [reflexivity|]. split; [reflexivity|]. split.
    + reflexivity.
    + intro H. contradiction.
Qed.

(** X10.  [handleInputChange] never raises.  It keeps the list's length and
    order and every goal's identifier and stored results; a goal that does
    not carry the active goal's identifier is untouched, and in one that
    does the named field becomes the typed text while the nine other fields
    keep theirs. *)
Theorem handleInputChange_edits (field : Field) (value : string)
    (st : State) :
  exists a_id gs,
    handleInputChange field value st = Some (with_goals st gs)
    /\ (forall a, activeGoal st = Some a -> a_id = id a)
    /\ Forall2 (edited field value a_id) (goals st) gs.
Proof.
  destruct (map_active_total (activeGoal st)
              (fun g => with_inputs g (set_field field value (inputs g)))
              (goals st) (active_of_nonempty st)) as (a_id & Ha & E).
  exists a_id. eexists. unfold handleInputChange. rewrite E.
  split; [reflexivity|]. split; [exact Ha|]. apply edited_map.
Qed.

Lemma norm_getRiskReturn (p : RiskProfile) :
  norm (toString (getRiskReturn p)) = getRiskReturn p.
Proof.
  destruct p; vm_compute; apply f_equal; apply Qc_is_canon; reflexivity.
Qed.

Lemma slider_round_trip (p : RiskProfile) :
  profile_of_slider (Number (toString (riskSliderValue p))) = p.
Proof. destruct p; vm_compute; reflexivity. Qed.

(** X11.  [handleRiskChange] never raises.  It sets the risk profile read off
    the slider value ([1] conservative, [3] aggressive, anything else
    moderate) and changes only the [annualReturn] text of the goals carrying
    the active identifier, which then normalizes to [getRiskReturn] of that
    profile; on the text of [riskSliderValue q] the profile set is [q]. *)
Theorem handleRiskChange_sets_return (value : string) (st : State) :
  let p := profile_of_slider (Number value) in
  exists a_id gs,
    handleRiskChange value st =
      Some {| riskProfile := p; goals := gs;
              activeGoalId := activeGoalId st;
              monthlyIncome := monthlyIncome st |}
    /\ (forall a, activeGoal st = Some a -> a_id = id a)
    /\ Forall2 (edited FannualReturn (toString (getRiskReturn p)) a_id)
         (goals st) gs
    /\ (forall g, In g gs -> id g = a_id ->
          norm (annualReturn (inputs g)) = getRiskReturn p)
    /\ (forall q, value = toString (riskSliderValue q) -> p = q).
Proof.
  intro p.
  destruct (map_active_total (activeGoal st)
      (fun g => with_inputs g
         (set_field FannualReturn (toString (getRiskReturn p)) (inputs g)))
      (goals st) (active_of_nonempty st)) as (a_id & Ha & E).
  exists a_id. eexists. unfold handleRiskChange. fold p. rewrite E.
  split; [reflexivity|]. split; [exact Ha|].
  split; [apply edited_map|]. split.
  - intros g Hin Hid. apply in_map_iff in Hin.
    destruct Hin as (g0 & Hg & _).
    destruct (id g0 =? a_id)%Z eqn:E0.
    + subst g. cbn [with_inputs inputs set_field annualReturn].
      apply norm_getRiskReturn.
    + subst g. apply Z.eqb_neq in E0. contradiction.
  - intros q ->. apply slider_round_trip.
Qed.

(* ----------------------------------------------------------------- *)
(** *** Calculating a goal *)

Lemma calculate_goals_none (pf : Qc -> Qc -> Qc) (goalId : Z)
    (l : list Goal) :
  calculate_goals pf goalId l = None <->
  exists g, In g l /\ id g = goalId /\ Number (years (inputs g)) = PInf.
Proof.
  induction l as [|g l IH].
  - split; [discriminate | intros (g & [] & _)].
  - cbn [calculate_goals]. destruct (id g =? goalId)%Z eqn:E.
    + apply Z.eqb_eq in E.
      destruct (computeResults pf (inputs g)) as [r|] eqn:C.
      * destruct (calculate_goals pf goalId l) as [l'|]; cbn [option_map].
        -- split; [discriminate|]. intros (h & [<-|Hin] & Hid & Hy).
           ++ apply computeResults_none with (pf := pf) in Hy. congruence.
           ++ assert (Hex : exists g0, In g0 l /\ id g0 = goalId /\
                       Number (years (inputs g0)) = PInf) by eauto.
              apply IH in Hex. discriminate.
        -- split; [|reflexivity]. intros _.
           destruct (proj1 IH eq_refl) as (h & Hin & Hh). exists h.
           split; [now right | exact Hh].
      * split; [|reflexivity]. intros _. exists g.
        split; [now left|]. split; [exact E|].
        now apply (computeResults_none pf).
    + apply Z.eqb_neq in E.
      destruct (calculate_goals pf goalId l) as [l'|]; cbn [option_map].
      * split; [discriminate|]. intros (h & [<-|Hin] & Hid & Hy).
        -- contradiction.
        -- assert (Hex : exists g0, In g0 l /\ id g0 = goalId /\
                       Number (years (inputs g0)) = PInf) by eauto.
           apply IH in Hex. discriminate.
      * split; [|reflexivity]. intros _.
        destruct (proj1 IH eq_refl) as (h & Hin & Hh). exists h.
        split; [now right | exact Hh].
Qed.

Lemma calculate_goals_some (pf : Qc -> Qc -> Qc) (goalId : Z)
    (l l' : list Goal) :
  calculate_goals pf goalId l = Some l' ->
  Forall2 (calculated pf goalId) l l'
  /\ calculate_goals pf goalId l' = Some l'.
Proof.
  revert l'. induction l as [|g l IH]; intros l' H.
  - injection H as <-. split; [constructor | reflexivity].
  - cbn [calculate_goals] in H. destruct (id g =? goalId)%Z eqn:E.
    + destruct (computeResults pf (inputs g)) as [r|] eqn:C;
        [|discriminate].
      destruct (calculate_goals pf goalId l) as [t|]; [|discriminate].
      injection H as <-. destruct (IH t eq_refl) as [HF HI].
      split.
      * constructor; [|exact HF]. apply Z.eqb_eq in E.
        unfold calculated. cbn [with_results id inputs results].
        split; [reflexivity|]. split; [reflexivity|].
        split; [intro; contradiction|]. intros _.
        split; [now symmetry | discriminate].
      * cbn [calculate_goals with_results id inputs]. rewrite E, C, HI.
        reflexivity.
    + destruct (calculate_goals pf goalId l) as [t|]; [|discriminate].
      injection H as <-. destruct (IH t eq_refl) as [HF HI].
      split.
      * constructor; [|exact HF]. apply Z.eqb_neq in E.
        unfold calculated.
        split; [reflexivity|]. split; [reflexivity|].
        split; [reflexivity|]. intro; contradiction.
      * cbn [calculate_goals]. rewrite E, HI. reflexivity.
Qed.

(** X12.  [calculateForGoal] does not return when a goal with the given
    identifier has a [years] text that reads [+Infinity], and it returns
    when every goal with the identifier has a horizon within
    [horizon_limit].  Whenever it returns, identifiers and inputs are
    unchanged, goals with another identifier are untouched, every goal
    with the identifier stores the results of [computeResults] on its own
    inputs, and calculating again changes nothing. *)
Theorem calculateForGoal_frame (pf : Qc -> Qc -> Qc) (goalId : Z)
    (st : State) :
  ((exists g, In g (goals st) /\ id g = goalId
              /\ Number (years (inputs g)) = PInf) ->
   calculateForGoal pf goalId st = None)
  /\ ((forall g, In g (goals st) -> id g = goalId ->
                 within_horizon (inputs g)) ->
      exists st', calculateForGoal pf goalId st = Some st')
  /\ forall st', calculateForGoal pf goalId st = Some st' ->
       Forall2 (calculated pf goalId) (goals st) (goals st')
       /\ st' = with_goals st (goals st')
       /\ calculateForGoal pf goalId st' = Some st'.
Proof.
  unfold calculateForGoal. split; [|split].
  - intro H. apply (calculate_goals_none pf goalId (goals st)) in H.
    rewrite H. reflexivity.
  - intro Hall.
    destruct (calculate_goals pf goalId (goals st)) as [l'|] eqn:C;
      cbn [option_map]; [eauto|].
    apply calculate_goals_none in C. destruct C as (g & Hin & Hid & Hy).
    exfalso. exact (within_horizon_finite _ (Hall g Hin Hid) Hy).
  - intros st' H.
    destruct (calculate_goals pf goalId (goals st)) as [l'|] eqn:C;
      [|discriminate].
    injection H as <-. destruct (calculate_goals_some _ _ _ _ C) as [HF HI].
    cbn [with_goals goals]. split; [exact HF|]. split; [reflexivity|].
    rewrite HI. reflexivity.
Qed.

(* ----------------------------------------------------------------- *)
(** *** Adding and removing goals *)

Lemma fold_max_ge (l : list Z) (x : Z) :
  (x <= fold_left Z.max l x)%Z
  /\ forall y, In y l -> (y <= fold_left Z.max l x)%Z.
Proof.
  revert x. induction l as [|a l IH]; intro x; cbn [fold_left].
  - split; [lia | intros y []].
  - destruct (IH (Z.max x a)) as [H1 H2]. split; [lia|].
    intros y [<-|Hy]; [lia | now apply H2].
Qed.

Lemma max_of_ge (l : list Z) (y : Z) : In y l -> (y <= max_of l)%Z.
Proof.
  destruct l as [|x l]; [intros []|]. cbn [max_of].
  destruct (fold_max_ge l x) as [H1 H2].
  intros [<-|Hy]; [exact H1 | now apply H2].
Qed.

Lemma nextId_fresh (l : list Goal) (g : Goal) :
  In g l -> (id g < nextId l)%Z.
Proof.
  intro H. assert (Hm : (id g <= max_of (map id l))%Z)
    by (apply max_of_ge; now apply in_map).
  destruct l; [destruct H|]. unfold nextId. lia.
Qed.

Lemma addGoal_active_id (st : State) :
  activeGoalId (addGoal st) = nextId (goals st).
Proof.
  unfold addGoal, nextId. cbn [activeGoalId].
  destruct (goals st); reflexivity.
Qed.

Lemma find_app_none {A : Type} (f : A -> bool) (l l' : list A) :
  (forall x, In x l -> f x = false) -> find f (l ++ l') = find f l'.
Proof.
  induction l as [|a l IH]; intro H; [reflexivity|].
  cbn [app find]. rewrite (H a (or_introl eq_refl)).
  apply IH. intros x Hx. apply H. now right.
Qed.

(** X13.  [addGoal] appends one goal without results whose identifier is
    larger than every identifier in use, makes it the active goal, keeps the
    identifiers distinct when they were, and leaves the risk profile and the
    income alone. *)
Theorem addGoal_fresh (st : State) :
  exists g,
    goals (addGoal st) = goals st ++ [g]
    /\ results g = None
    /\ id g = activeGoalId (addGoal st)
    /\ (forall h, In h (goals st) -> (id h < id g)%Z)
    /\ activeGoal (addGoal st) = Some g
    /\ (NoDup (map id (goals st)) -> NoDup (map id (goals (addGoal st))))
    /\ riskProfile (addGoal st) = riskProfile st
    /\ monthlyIncome (addGoal st) = monthlyIncome st.
Proof.
  exists (newGoal (nextId (goals st))).
  split; [reflexivity|]. split; [reflexivity|].
  split; [symmetry; apply addGoal_active_id|].
  assert (Hf : forall h, In h (goals st) ->
                 (id h < id (newGoal (nextId (goals st))))%Z)
    by (intros h Hh; cbn [newGoal id]; now apply nextId_fresh).
  split; [exact Hf|]. split; [|split; [|split; reflexivity]].
  - unfold activeGoal. rewrite addGoal_active_id. cbn [addGoal goals].
    rewrite find_app_none.
    + cbn [find newGoal id]. now rewrite Z.eqb_refl.
    + intros h Hh. apply Z.eqb_neq.
      apply Hf in Hh. cbn [newGoal id] in Hh. lia.
  - intro Hnd. cbn [addGoal goals]. rewrite map_app. cbn [map].
    apply NoDup_app; [exact Hnd | repeat constructor; intros [] |].
    intros i Hi [<-|[]]. apply in_map_iff in Hi.
    destruct Hi as (h & Heq & Hh). apply Hf in Hh. lia.
Qed.

Lemma filter_id_in (i : Z) (l : list Goal) (g : Goal) :
  In g (filter (fun h => negb (id h =? i)%Z) l) <-> In g l /\ id g <> i.
Proof.
  rewrite filter_In. split; intros [H1 H2]; (split; [exact H1|]).
  - apply negb_true_iff in H2. now apply Z.eqb_neq.
  - apply negb_true_iff. now apply Z.eqb_neq.
Qed.

Lemma NoDup_ids_filter (i : Z) (l : list Goal) :
  NoDup (map id l) ->
  NoDup (map id (filter (fun h => negb (id h =? i)%Z) l)).
Proof.
  induction l as [|g l IH]; intro H; [constructor|].
  cbn [map] in H. apply NoDup_cons_iff in H. destruct H as [Hn Hd].
  cbn [filter]. destruct (negb (id g =? i)%Z); [|now apply IH].
  cbn [map]. apply NoDup_cons; [|now apply IH].
  intro Hin. apply Hn. apply in_map_iff in Hin.
  destruct Hin as (h & Hh & Hin). apply filter_id_in in Hin.
  apply in_map_iff. exists h. tauto.
Qed.

Lemma filter_nonempty (i : Z) (l : list Goal) :
  NoDup (map id l) -> (2 <= List.length l)%nat ->
  filter (fun h => negb (id h =? i)%Z) l <> [].
Proof.
  intros Hnd Hlen. destruct l as [|g1 [|g2 l]]; cbn [List.length] in Hlen;
    try lia.
  cbn [map] in Hnd. inversion Hnd as [|x xs Hn _]; subst.
  assert (H12 : id g1 <> id g2) by (intro E; apply Hn; left; now symmetry).
  destruct (Z.eq_dec (id g1) i) as [E1|E1].
  - assert (Hin : In g2 (filter (fun h => negb (id h =? i)%Z)
                           (g1 :: g2 :: l))).
    { apply filter_id_in. split; [right; now left | congruence]. }
    intro E. rewrite E in Hin. destruct Hin.
  - assert (Hin : In g1 (filter (fun h => negb (id h =? i)%Z)
                           (g1 :: g2 :: l))).
    { apply filter_id_in. split; [now left | exact E1]. }
    intro E. rewrite E in Hin. destruct Hin.
Qed.

(** X14.  On a portfolio with distinct identifiers that is not empty,
    [removeGoal] never empties it and keeps the identifiers distinct; it
    does nothing on a single goal, otherwise it removes exactly the goals
    with the given identifier; and an active identifier that named a goal
    still names one afterwards. *)
Theorem removeGoal_keeps_portfolio (i : Z) (st : State) :
  NoDup (map id (goals st)) -> goals st <> [] ->
  goals (removeGoal i st) <> []
  /\ NoDup (map id (goals (removeGoal i st)))
  /\ (List.length (goals st) = 1%nat -> removeGoal i st = st)
  /\ (List.length (goals st) <> 1%nat ->
      forall g, In g (goals (removeGoal i st)) <->
                In g (goals st) /\ id g <> i)
  /\ (In (activeGoalId st) (map id (goals st)) ->
      In (activeGoalId (removeGoal i st))
         (map id (goals (removeGoal i st))))
  /\ riskProfile (removeGoal i st) = riskProfile st
  /\ monthlyIncome (removeGoal i st) = monthlyIncome st.
Proof.
  intros Hnd Hne. unfold removeGoal.
  destruct (List.length (goals st) =? 1)%nat eqn:E.
  - apply Nat.eqb_eq in E.
    split; [exact Hne|]. split; [exact Hnd|]. split; [reflexivity|].
    split; [intro H; contradiction|]. split; [tauto|]. split; reflexivity.
  - apply Nat.eqb_neq in E. cbn [goals activeGoalId riskProfile monthlyIncome].
    assert (Hlen : (2 <= List.length (goals st))%nat).
    { destruct (goals st) as [|g1 [|g2 l]]; cbn [List.length] in *;
        [contradiction | lia | lia]. }
    pose proof (filter_nonempty i _ Hnd Hlen) as Hf.
    split; [exact Hf|]. split; [now apply NoDup_ids_filter|].
    split; [intro H; contradiction|].
    split; [intros _ g; apply filter_id_in|].
    split; [|split; reflexivity].
    intro Hact.
    destruct (filter _ (goals st)) as [|first rest] eqn:F;
      [contradiction|].
    destruct (activeGoalId st =? i)%Z eqn:Ea.
    + left. reflexivity.
    + apply Z.eqb_neq in Ea. apply in_map_iff in Hact.
      destruct Hact as (g & Hg & Hin). apply in_map_iff. exists g.
      split; [exact Hg|]. rewrite <- F. apply filter_id_in.
      split; [exact Hin | congruence].
Qed.

Lemma removeGoal_keeps_portfolio_witness :
  goals (removeGoal 1 two_goals) <> []
  /\ activeGoalId (removeGoal 1 two_goals) = 2%Z.
Proof.
  split; [|reflexivity].
  refine (proj1 (removeGoal_keeps_portfolio 1 two_goals _ _)).
  - vm_compute. repeat constructor; cbn; intuition discriminate.
  - vm_compute. discriminate.
Defined.

Lemma filter_all {A : Type} (f : A -> bool) (l : list A) :
  (forall x, In x l -> f x = true) -> filter f l = l.
Proof.
  induction l as [|a l IH]; intro H; [reflexivity|].
  cbn [filter]. rewrite (H a (or_introl eq_refl)).
  apply f_equal. apply IH. intros x Hx. apply H. now right.
Qed.

(** X15.  Removing the goal that [addGoal] has just added restores the list
    of goals of a portfolio that was not empty, but not the selection: the
    active identifier becomes that of the first goal. *)
Theorem addGoal_then_removeGoal (st : State) (first : Goal)
    (rest : list Goal) :
  goals st = first :: rest ->
  goals (removeGoal (activeGoalId (addGoal st)) (addGoal st)) = goals st
  /\ activeGoalId (removeGoal (activeGoalId (addGoal st)) (addGoal st))
     = id first.
Proof.
  intro Hg. rewrite addGoal_active_id.
  assert (Hf : filter (fun g => negb (id g =? nextId (goals st))%Z)
                 (goals (addGoal st)) = goals st).
  { cbn [addGoal goals]. rewrite filter_app.
    rewrite filter_all.
    - cbn [filter newGoal id]. rewrite Z.eqb_refl. cbn [negb].
      apply app_nil_r.
    - intros g Hin. apply negb_true_iff. apply Z.eqb_neq.
      apply nextId_fresh in Hin. lia. }
  unfold removeGoal.
  replace (List.length (goals (addGoal st)) =? 1)%nat with false.
  2:{ symmetry. apply Nat.eqb_neq. cbn [addGoal goals].
      rewrite length_app, Hg. cbn [List.length]. lia. }
  cbn [goals activeGoalId]. rewrite Hf, Hg.
  split; [reflexivity|].
  rewrite addGoal_active_id, Hg, Z.eqb_refl. reflexivity.
Qed.

Lemma addGoal_then_removeGoal_witness :
  goals (removeGoal (activeGoalId (addGoal initialState))
                    (addGoal initialState))
  = goals initialState
  /\ activeGoalId
       (removeGoal (activeGoalId (addGoal initialState))
                   (addGoal initialState))
     = 1%Z.
Proof.
  apply (addGoal_then_removeGoal initialState
           {| id := 1; inputs := initialInputs; results := None |} []).
  reflexivity.
Defined.

(* ----------------------------------------------------------------- *)
(** *** Portfolio totals and the income message *)

Lemma add_not_negative (a b : num) :
  lt a zero = false -> lt b zero = false -> lt (add a b) zero = false.
Proof.
  destruct a as [| | |x], b as [| | |y]; unfold zero, ofZ; cbn [lt add];
    try congruence.
  intros Hx Hy. apply Qcltb_ge in Hx. apply Qcltb_ge in Hy.
  apply Qcltb_ge. revert Hx Hy. to_Q. unfold inject_Z. intros. lra.
Qed.

Lemma Math_max_zero_not_negative (a : num) : lt (Math_max zero a) zero = false.
Proof.
  destruct a as [| | |x]; try reflexivity.
  unfold Math_max, zero, ofZ. cbn [lt].
  destruct (Qcltb (Q2Qc (inject_Z 0)) x) eqn:E.
  - apply Qcltb_lt in E. apply Qcltb_ge. apply Qclt_le_weak. exact E.
  - reflexivity.
Qed.

Lemma add_zero_valued (a b : num) :
  seq a zero = true -> seq b zero = true -> seq (add a b) zero = true.
Proof.
  destruct a as [| | |x], b as [| | |y]; unfold zero, ofZ; cbn [seq add];
    try congruence.
  intros Hx Hy. apply Qceqb_eq in Hx. apply Qceqb_eq in Hy. subst.
  reflexivity.
Qed.

Lemma Math_max_zero_nonpos (q : Qc) :
  (q <= 0)%Qc -> seq (Math_max zero (Fin q)) zero = true.
Proof.
  intro H. unfold Math_max, zero, ofZ. cbn [lt].
  replace (Qcltb (Q2Qc (inject_Z 0)) q) with false; [reflexivity|].
  symmetry. apply Qcltb_ge. exact H.
Qed.

Lemma visit_totalRequired_not_negative (l : list Goal) (acc : Sums) :
  lt (totalRequired acc) zero = false ->
  lt (totalRequired (fold_left visit l acc)) zero = false.
Proof.
  revert acc. induction l as [|g l IH]; intros acc H; [exact H|].
  cbn [fold_left]. apply IH. unfold visit. cbn [totalRequired].
  destruct (results g) as [res|]; [|exact H].
  destruct (monthlyRequired res) as [req|]; [|exact H].
  apply add_not_negative; [exact H | apply Math_max_zero_not_negative].
Qed.

Lemma visit_totalRequired_zero (l : list Goal) (acc : Sums) :
  (forall g, In g l -> needs_nothing g) ->
  seq (totalRequired acc) zero = true ->
  seq (totalRequired (fold_left visit l acc)) zero = true.
Proof.
  revert acc. induction l as [|g l IH]; intros acc Hl H; [exact H|].
  cbn [fold_left]. apply IH; [intros h Hh; apply Hl; now right|].
  unfold visit. cbn [totalRequired].
  pose proof (Hl g (or_introl eq_refl)) as Hg. unfold needs_nothing in Hg.
  destruct (results g) as [res|]; [|exact H].
  destruct (Hg res eq_refl) as [E|(q & E & Hq)]; rewrite E; [exact H|].
  apply add_zero_valued; [exact H | now apply Math_max_zero_nonpos].
Qed.

(** X16.  The total required contribution is never negative, whatever the
    stored results hold, and it is [0] when every goal has no results, no
    stored requirement, or a stored requirement that is not positive. *)
Theorem totalRequiredSip_not_negative (goals : list Goal) :
  lt (totalRequiredSip (totals goals)) zero = false
  /\ ((forall g, In g goals -> needs_nothing g) ->
      seq (totalRequiredSip (totals goals)) zero = true).
Proof.
  unfold totals, sums. cbn [totalRequiredSip]. split.
  - apply visit_totalRequired_not_negative. reflexivity.
  - intro H. apply visit_totalRequired_zero; [exact H | reflexivity].
Qed.

Lemma seq_zero_falsy (a : num) : seq a zero = true -> truthy a = false.
Proof.
  destruct a as [| | |x]; unfold zero, ofZ; cbn [seq truthy]; try congruence.
  intro H. apply Qceqb_eq in H. subst. reflexivity.
Qed.

Lemma income_positive (income : string) :
  gt (norm income) zero = true ->
  negb (truthy (or_else (Number income) zero)) ||
    le (or_else (Number income) zero) zero = false.
Proof.
  fold (norm income).
  destruct (norm income) as [| | |x]; unfold zero, ofZ, gt;
    cbn [lt le truthy]; try congruence; try reflexivity.
  intro H. apply Qcltb_lt in H.
  apply orb_false_iff. split.
  - apply negb_false_iff. apply negb_true_iff. apply Qceqb_neq.
    intro E. apply (Qclt_not_eq _ _ H). symmetry. exact E.
  - apply Qcleb_gt. exact H.
Qed.

(** X17.  With a positive income, a portfolio none of whose goals needs a
    positive contribution gets the message that asks to calculate the goals,
    also when every goal has been calculated. *)
Theorem conflict_asks_to_calculate (income : string) (goals : list Goal) :
  gt (norm income) zero = true ->
  (forall g, In g goals -> needs_nothing g) ->
  conflictMessage income (totalRequiredSip (totals goals))
    = CalculateYourGoals.
Proof.
  intros Hi Hg. unfold conflictMessage.
  rewrite (income_positive income Hi).
  assert (Hz : seq (totalRequiredSip (totals goals)) zero = true)
    by (apply visit_totalRequired_zero; [exact Hg | reflexivity]).
  rewrite (seq_zero_falsy _ Hz). reflexivity.
Qed.

Lemma conflict_asks_to_calculate_witness :
  conflictMessage "50000" (totalRequiredSip (totals [newGoal 1]))
    = CalculateYourGoals.
Proof.
  apply conflict_asks_to_calculate.
  - vm_compute. reflexivity.
  - intros g [<-|[]] res H. discriminate H.
Defined.

(* ----------------------------------------------------------------- *)
(** *** The recommended allocation *)

Lemma weight_range (g : Goal) :
  norm_priority g = Fin (weight g)
  /\ (1 <= weight g <= Q2Qc (inject_Z 5))%Qc.
Proof.
  unfold weight. destruct (norm_priority_range g) as (p & -> & H).
  split; [reflexivity | exact H].
Qed.

Lemma fold_priority (l : list Goal) (a : Qc) :
  fold_left (fun sum g => add sum (norm_priority g)) l (Fin a)
  = Fin (a + sumQc (map weight l)).
Proof.
  revert a. induction l as [|g l IH]; intro a; cbn [fold_left map sumQc fold_right].
  - apply f_equal. ring.
  - destruct (weight_range g) as [-> _]. cbn [add]. rewrite IH.
    apply f_equal. fold (sumQc (map weight l)). ring.
Qed.

Lemma totalPriority_weights (l : list Goal) :
  totalPriority l = Fin (sumQc (map weight l)).
Proof.
  unfold totalPriority. change zero with (Fin 0%Qc) at 1.
  rewrite fold_priority. apply f_equal. ring.
Qed.

Lemma sum_weights_nonneg (l : list Goal) : (0 <= sumQc (map weight l))%Qc.
Proof.
  induction l as [|g l IH]; cbn [map sumQc fold_right].
  - apply Qcle_refl.
  - fold (sumQc (map weight l)). destruct (weight_range g) as [_ [H1 _]].
    revert IH H1. generalize (sumQc (map weight l)) (weight g). intros s w.
    to_Q. unfold inject_Z. intros. lra.
Qed.

Lemma weight_le_sum (l : list Goal) (g : Goal) :
  In g l -> (1 <= sumQc (map weight l))%Qc
            /\ (weight g <= sumQc (map weight l))%Qc.
Proof.
  induction l as [|h l IH]; [intros []|].
  cbn [map sumQc fold_right]. fold (sumQc (map weight l)).
  pose proof (sum_weights_nonneg l) as Hs.
  destruct (weight_range h) as [_ [H1 _]].
  intros [<-|Hin].
  - revert Hs H1. generalize (sumQc (map weight l)) (weight h). intros s w.
    to_Q. unfold inject_Z. intros. split; lra.
  - destruct (IH Hin) as [_ IH2]. revert Hs H1 IH2.
    generalize (sumQc (map weight l)) (weight h) (weight g). intros s w w'.
    to_Q. unfold inject_Z. intros. split; lra.
Qed.

Lemma sum_weights_pos (l : list Goal) :
  l <> [] -> (0 < sumQc (map weight l))%Qc.
Proof.
  destruct l as [|g l]; [congruence|]. intros _.
  destruct (weight_le_sum (g :: l) g (or_introl eq_refl)) as [H _].
  revert H. generalize (sumQc (map weight (g :: l))). intro s.
  to_Q. unfold inject_Z. intros. lra.
Qed.

Lemma recommendedAllocation_shares (income : string) (goals : list Goal)
    (I : Qc) :
  norm income = Fin I -> (0 < I)%Qc -> goals <> [] ->
  recommendedAllocation income goals
  = Some (map (suggestion_for I (sumQc (map weight goals))) goals).
Proof.
  intros Hn HI Hg.
  assert (Hgt : gt (norm income) zero = true)
    by (rewrite Hn; apply Qcltb_lt; exact HI).
  unfold recommendedAllocation. rewrite (income_positive income Hgt).
  fold (norm income). rewrite Hn, totalPriority_weights.
  pose proof (sum_weights_pos goals Hg) as Hs.
  set (s := sumQc (map weight goals)) in *.
  assert (Hs0 : s <> 0%Qc).
  { intro E. rewrite E in Hs. revert Hs. to_Q. unfold inject_Z. lra. }
  replace (seq (Fin s) zero) with false
    by (symmetry; now apply Qceqb_neq).
  apply f_equal. apply map_ext. intro g.
  destruct (weight_range g) as [-> _].
  unfold suggestion_for, share_of, safeMax_of, dec. cbn [div mul].
  replace (Qceqb s 0) with false by (symmetry; now apply Qceqb_neq).
  reflexivity.
Qed.

Lemma round_half_up_mono (x y : Qc) :
  (x <= y)%Qc -> (round_half_up x <= round_half_up y)%Z.
Proof.
  intro H. unfold round_half_up. apply Qfloor_resp_le.
  unfold Qcle in H. lra.
Qed.

Lemma round_half_up_nonneg (x : Qc) : (0 <= x)%Qc -> (0 <= round_half_up x)%Z.
Proof.
  intro H. unfold round_half_up.
  change 0%Z with (Qfloor (inject_Z 0)). apply Qfloor_resp_le.
  revert H. to_Q. unfold inject_Z. intros. lra.
Qed.

Lemma share_bounds (I s : Qc) (g : Goal) :
  (0 < I)%Qc -> (0 < s)%Qc -> (weight g <= s)%Qc ->
  (0 <= share_of I s g <= safeMax_of I)%Qc.
Proof.
  intros HI Hs Hw. destruct (weight_range g) as [_ [H1 _]].
  assert (HM : (0 <= safeMax_of I)%Qc).
  { unfold safeMax_of. revert HI. to_Q. unfold inject_Z. intros. lra. }
  assert (Hs0 : s <> 0%Qc).
  { intro E. rewrite E in Hs. revert Hs. to_Q. unfold inject_Z. lra. }
  assert (Hr : weight g = (weight g / s * s)%Qc) by (field; exact Hs0).
  unfold share_of. revert HM Hr H1 Hw Hs.
  generalize (weight g / s)%Qc. intro r.
  generalize (safeMax_of I) (weight g). intros M w.
  intros HM -> H1 Hw Hs.
  assert (Hq : (0 <= r <= 1)%Qc).
  { revert H1 Hw Hs. to_Q. unfold inject_Z. intros. split; nra. }
  revert HM Hq. to_Q. unfold inject_Z. intros. split; nra.
Qed.

(** X19.  For a finite positive income and at least one goal, the
    allocation lists the goals in order with their identifiers, and every
    suggestion is a whole number that is not negative and not above the
    rounded budget of 40% of the income. *)
Theorem allocation_within_budget (income : string) (goals : list Goal)
    (I : Qc) :
  norm income = Fin I -> (0 < I)%Qc -> goals <> [] ->
  exists l,
    recommendedAllocation income goals = Some l
    /\ map sug_id l = map id goals
    /\ Forall (fun s =>
                 (exists z, suggestedSip s = ofZ z)
                 /\ ge (suggestedSip s) zero = true
                 /\ le (suggestedSip s)
                       (Math_round (mul (norm income) (dec 2 5))) = true) l.
Proof.
  intros Hn HI Hg.
  pose proof (sum_weights_pos goals Hg) as Hs.
  set (s := sumQc (map weight goals)) in *.
  exists (map (suggestion_for I s) goals).
  split; [now apply recommendedAllocation_shares|].
  split; [rewrite map_map; reflexivity|].
  apply Forall_forall. intros sg Hsg. apply in_map_iff in Hsg.
  destruct Hsg as (g & <- & Hin).
  destruct (weight_le_sum goals g Hin) as [_ Hw]. fold s in Hw.
  destruct (share_bounds I s g HI Hs Hw) as [H0 HM].
  cbn [suggestion_for suggestedSip]. split; [eauto|].
  rewrite Hn. unfold dec. cbn [mul Math_round]. fold (safeMax_of I).
  unfold ge, zero, ofZ. cbn [le].
  split; apply Qcleb_le; unfold Qcle; rewrite !this_inject_Z;
    rewrite <- Zle_Qle.
  - now apply round_half_up_nonneg.
  - now apply round_half_up_mono.
Qed.

Lemma allocation_within_budget_witness :
  exists l,
    recommendedAllocation "50000" [newGoal 1; newGoal 2] = Some l
    /\ map sug_id l = [1%Z; 2%Z]
    /\ Forall (fun s =>
                 (exists z, suggestedSip s = ofZ z)
                 /\ ge (suggestedSip s) zero = true
                 /\ le (suggestedSip s)
                       (Math_round (mul (norm "50000") (dec 2 5))) = true) l.
Proof.
  apply (allocation_within_budget "50000" [newGoal 1; newGoal 2]
           (Q2Qc (inject_Z 50000))).
  - vm_compute. apply f_equal. apply Qc_is_canon. reflexivity.
  - reflexivity.
  - discriminate.
Defined.

Lemma in_combine_map {A B : Type} (f : A -> B) (l : list A) (a : A) (b : B) :
  In (a, b) (combine l (map f l)) -> In a l /\ b = f a.
Proof.
  induction l as [|x l IH]; [intros []|].
  cbn [map combine]. intros [E|H].
  - injection E as <- <-. split; [now left | reflexivity].
  - destruct (IH H) as [H1 H2]. split; [now right | exact H2].
Qed.

(** X20.  For a finite positive income and at least one goal, a goal whose
    clamped priority is not larger than another's is not suggested more, and
    goals of equal clamped priority are suggested the same amount. *)
Theorem allocation_follows_priority (income : string) (goals : list Goal)
    (I : Qc) :
  norm income = Fin I -> (0 < I)%Qc -> goals <> [] ->
  exists l,
    recommendedAllocation income goals = Some l
    /\ List.length l = List.length goals
    /\ forall g h s t,
         In (g, s) (combine goals l) -> In (h, t) (combine goals l) ->
         sug_id s = id g
         /\ (le (norm_priority g) (norm_priority h) = true ->
             le (suggestedSip s) (suggestedSip t) = true)
         /\ (norm_priority g = norm_priority h ->
             suggestedSip s = suggestedSip t).
Proof.
  intros Hn HI Hg.
  pose proof (sum_weights_pos goals Hg) as Hs.
  set (s := sumQc (map weight goals)) in *.
  exists (map (suggestion_for I s) goals).
  split; [now apply recommendedAllocation_shares|].
  split; [apply length_map|].
  intros g h sg sh Hin1 Hin2.
  apply in_combine_map in Hin1. destruct Hin1 as [Hg1 ->].
  apply in_combine_map in Hin2. destruct Hin2 as [Hh1 ->].
  split; [reflexivity|]. split.
  - destruct (weight_range g) as [-> _]. destruct (weight_range h) as [-> _].
    cbn [le suggestion_for suggestedSip]. unfold ofZ. cbn [le].
    intro Hle. apply Qcleb_le in Hle. apply Qcleb_le.
    assert (Hz : (round_half_up (share_of I s g)
                  <= round_half_up (share_of I s h))%Z).
    { apply round_half_up_mono. unfold share_of.
      assert (Hk : (0 <= / s * safeMax_of I)%Qc).
      { assert (Hi : (0 < / s)%Qc).
        { clear -Hs. to_Q. apply Qinv_lt_0_compat. exact Hs. }
        assert (HM : (0 <= safeMax_of I)%Qc).
        { unfold safeMax_of. revert HI. to_Q. unfold inject_Z. intros. lra. }
        revert Hi HM. generalize (/ s)%Qc (safeMax_of I). intros a b.
        to_Q. unfold inject_Z. intros. nra. }
      unfold Qcdiv. rewrite <- !Qcmult_assoc.
      apply Qcmult_le_compat_r; assumption. }
    unfold Qcle. rewrite !this_inject_Z. rewrite <- Zle_Qle. exact Hz.
  - intro E. cbn [suggestion_for suggestedSip]. unfold share_of, weight.
    rewrite E. reflexivity.
Qed.

Lemma allocation_follows_priority_witness :
  exists l,
    recommendedAllocation "50000" [newGoal 1; newGoal 2] = Some l
    /\ List.length l = 2%nat.
Proof.
  destruct (allocation_follows_priority "50000" [newGoal 1; newGoal 2]
           (Q2Qc (inject_Z 50000))) as (l & H1 & H2 & _).
  - vm_compute. apply f_equal. apply Qc_is_canon. reflexivity.
  - reflexivity.
  - discriminate.
  - exists l. split; [exact H1 | exact H2].
Defined.

(* ----------------------------------------------------------------- *)
(** *** Fields the calculator does not read *)

(** X21.  [computeResults] reads six of the ten fields: changing the goal's
    name, its type, the months already invested or the priority changes
    nothing in what it returns, nor whether it returns. *)
Theorem computeResults_ignores_descriptive_fields
    (pf : Qc -> Qc -> Qc) (field : Field) (value : string) (inputs : Inputs) :
  descriptive field = true ->
  computeResults pf (set_field field value inputs) = computeResults pf inputs.
Proof.
  intro H. unfold computeResults.
  destruct field; try discriminate H;
    cbn [set_field targetAmount years inflationRate currentSavings
         monthlyContribution annualReturn];
    reflexivity.
Qed.

Lemma computeResults_ignores_descriptive_fields_witness :
  computeResults pow_unused (set_field FmonthsInvested "18" spec_scenario)
  = computeResults pow_unused spec_scenario.
Proof.
  apply (computeResults_ignores_descriptive_fields pow_unused FmonthsInvested).
  reflexivity.
Defined.

End Extras.
